(** * customlib: file locking, singletons

    A shallow embedding of [library/locker.py]: the [LOCK] flag vocabulary,
    the mode table [FileLock._flags], [FileLock.lock], [FileLock.unlock],
    [FileLock.get_flags], the [singleton] decorator and the [MetaSingleton]
    metaclass; and of [library/encryption.py] (module [encryption] below):
    [Symmetric], [Cypher] and [KeyVault], whose calls into [cryptography],
    [keyring] and [library/utils.py] are answered by an environment too.

    Integers are Python integers ([Z], with [Z.land] for [&]); the class
    dictionary [_flags] and the module dictionary [INSTANCES] are finite maps;
    the calls into [msvcrt], [win32file] and the file object are answered by
    an environment, which also says where the operating system has each
    descriptor; every call that is made is logged. *)

From Stdlib Require Import ZArith Lia List Bool Ascii String.
From stdpp Require Import base option gmap strings list fin_maps.

Local Open Scope Z_scope.

(** ** Constants of the imported modules *)

(** [msvcrt] (the C runtime's [sys/locking.h]). *)
Module msvcrt.
Definition LK_UNLCK : Z := 0.
Definition LK_LOCK : Z := 1.
Definition LK_NBLCK : Z := 2.
Definition LK_RLCK : Z := 3.
Definition LK_NBRLCK : Z := 4.
End msvcrt.

(** [win32con] and [winerror]; the two error codes are also the ones quoted in
    the comments of [lock] and [unlock]. *)
Module win32.
Definition LOCKFILE_FAIL_IMMEDIATELY : Z := 1.
Definition ERROR_LOCK_VIOLATION : Z := 33.
Definition ERROR_NOT_LOCKED : Z := 158.
End win32.

(** ** [class LOCK(IntFlag)] *)
Module LOCK.
Definition EX : Z := 0x1.
Definition SH : Z := 0x2.
Definition NB : Z := 0x4.
Definition UN : Z := msvcrt.LK_UNLCK.
End LOCK.

(** Python truth of the integer [flags & bit]. *)
Definition has_flag (flags bit : Z) : bool := negb (Z.eqb (Z.land flags bit) 0).

(** ** File objects *)

(** The part of an open file object the module looks at: its identity and its
    [mode] attribute.  The cursor lives in the world (see below). *)
Record IO := mkIO { io_name : string; io_mode : string }.

#[global] Instance IO_eq_dec : EqDecision IO.
Proof. solve_decision. Defined.

(** ** [str.strip(chars)] *)

Fixpoint in_chars (c : ascii) (chars : string) : bool :=
  match chars with
  | EmptyString => false
  | String d rest => if Ascii.eqb c d then true else in_chars c rest
  end.

Fixpoint lstrip (chars s : string) : string :=
  match s with
  | EmptyString => EmptyString
  | String c rest => if in_chars c chars then lstrip chars rest else s
  end.

Fixpoint rstrip (chars s : string) : string :=
  match s with
  | EmptyString => EmptyString
  | String c rest =>
      match rstrip chars rest with
      | EmptyString => if in_chars c chars then EmptyString else String c EmptyString
      | kept => String c kept
      end
  end.

Definition strip (chars s : string) : string := rstrip chars (lstrip chars s).

(** ** [FileLock._flags], [FileLock._get_mode], [FileLock.get_flags] *)

Definition _flags : gmap string Z :=
  <["w"%string := LOCK.EX]> (<["a"%string := LOCK.EX]>
    (<["x"%string := LOCK.EX]> (<["r"%string := LOCK.SH]> ∅))).

Definition _get_mode (handle : IO) : string := strip "tb+" (io_mode handle).

(** [dict.get(key)] is the lookup of the map: [None] is Python's [None]. *)
Definition get_flags (handle : IO) : option Z := _flags !! _get_mode handle.

(** ** Exceptions *)

(** Modelled from the spec: [library/exceptions.py] is not among the sources;
    [LockException(LockException.LOCK_FAILED, strerror, handle=handle)] is the
    spec's [LockFailed(reason, handle)], an error class of its own (neither an
    [IOError] nor a [pywintypes.error]). *)
Inductive LockCode := LOCK_FAILED.

Inductive exn :=
| IOError (strerror : string)
| pywin_error (winerror : Z) (funcname strerror : string)
| LockException (code : LockCode) (strerror : string) (handle : IO)
| OtherError (name : string).

(** ** The world: cursors of the open files and the log of calls *)

(** [pywintypes.OVERLAPPED()]: a fresh structure has all fields zero. *)
Record OVERLAPPED := mkOVERLAPPED { Offset : Z; OffsetHigh : Z; hEvent : Z }.

(** The calls that leave the module.  [msvcrt.locking(fd, mode, nbytes)] locks
    or releases [nbytes] bytes from the position at which the operating system
    has the descriptor [fd], so that position at the time of the call is part
    of the event. *)
Inductive Call :=
| OpTell (handle : IO)
| OpSeek (handle : IO) (pos : Z)
| OpFileno (handle : IO)
| OpLocking (fd mode nbytes : Z) (at_pos : Z)
| OpGetOsfhandle (fd : Z)
| OpLockFileEx (hfile flags nbytes_low nbytes_high : Z) (ol : OVERLAPPED)
| OpUnlockFileEx (hfile nbytes_low nbytes_high : Z) (ol : OVERLAPPED).

Inductive Reply :=
| Ret (v : Z)
| Raises (e : exn).

Definition Event : Type := Call * Reply.

(** [cursor w handle] is the position of the file object [handle], the one its
    [tell] reports.  The most recent event is the head of [history]. *)
Record World := mkWorld { cursor : IO -> Z; history : list Event }.

(** The environment (file object, C runtime, Win32) answers a call knowing
    everything that happened before.  It also knows where the operating system
    has each descriptor: the module never reads or sets that position itself,
    and a file object moves its descriptor when it fills or flushes its buffer
    or seeks outside it, not whenever its own position changes. *)
Record Env := mkEnv {
  answer :> list Event -> Call -> Reply;
  descriptor_offset : list Event -> Z -> Z
}.

Inductive Result (A : Type) :=
| Ok (a : A)
| Err (e : exn).
Arguments Ok {A} a.
Arguments Err {A} e.

(** ** A state and exception monad *)

Definition M (A : Type) : Type := Env -> World -> Result A * World.

#[global] Instance M_ret : MRet M := fun A a _ w => (Ok a, w).

#[global] Instance M_bind : MBind M := fun A B f m env w =>
  match m env w with
  | (Ok a, w') => f a env w'
  | (Err e, w') => (Err e, w')
  end.

Definition raise {A : Type} (e : exn) : M A := fun _ w => (Err e, w).

(** [try: body / except ...: handler]; [handler e = None] when no [except]
    clause matches [e]. *)
Definition try_except {A : Type} (body : M A) (handler : exn -> option (M A)) : M A :=
  fun env w =>
    match body env w with
    | (Err e, w') =>
        match handler e with
        | Some h => h env w'
        | None => (Err e, w')
        end
    | done => done
    end.

(** [try: body / finally: final]: [final] always runs; an exception of
    [final] replaces the outcome of [body]. *)
Definition try_finally {A : Type} (body : M A) (final : M unit) : M A :=
  fun env w =>
    match body env w with
    | (r, w') =>
        match final env w' with
        | (Ok _, w'') => (r, w'')
        | (Err e, w'') => (Err e, w'')
        end
    end.

Definition set_cursor (handle : IO) (pos : Z) (c : IO -> Z) : IO -> Z :=
  fun h => if decide (h = handle) then pos else c h.

(** A seek that returns moves the cursor; a call that raises changes nothing
    but the log. *)
Definition effect (c : Call) (cur : IO -> Z) : IO -> Z :=
  match c with
  | OpSeek handle pos => set_cursor handle pos cur
  | _ => cur
  end.

(** What a call gets back: the environment decides whether it returns or
    raises; a [tell] that returns gives the cursor. *)
Definition reply_of (env : Env) (w : World) (c : Call) : Reply :=
  match c with
  | OpTell handle =>
      match env (history w) c with
      | Ret _ => Ret (cursor w handle)
      | Raises e => Raises e
      end
  | _ => env (history w) c
  end.

Definition call (c : Call) : M Z := fun env w =>
  match reply_of env w c with
  | Ret v => (Ok v, mkWorld (effect c (cursor w)) ((c, Ret v) :: history w))
  | Raises e => (Err e, mkWorld (cursor w) ((c, Raises e) :: history w))
  end.

Definition tell (handle : IO) : M Z := call (OpTell handle).

Definition seek (handle : IO) (pos : Z) : M unit := call (OpSeek handle pos) ;; mret tt.

Definition fileno (handle : IO) : M Z := call (OpFileno handle).

(** [msvcrt.locking] starts at the position of the descriptor. *)
Definition locking (fd mode nbytes : Z) : M unit := fun env w =>
  (call (OpLocking fd mode nbytes (descriptor_offset env (history w) fd)) ;; mret tt) env w.

Definition _get_osfhandle (fd : Z) : M Z := call (OpGetOsfhandle fd).

Definition LockFileEx (hfile flags lo hi : Z) (ol : OVERLAPPED) : M unit :=
  call (OpLockFileEx hfile flags lo hi ol) ;; mret tt.

Definition UnlockFileEx (hfile lo hi : Z) (ol : OVERLAPPED) : M unit :=
  call (OpUnlockFileEx hfile lo hi ol) ;; mret tt.

(** Python truth of an integer. *)
Definition truthy (n : Z) : bool := negb (Z.eqb n 0).

(** ** [class FileLock] *)

Record FileLock := mkFileLock { overlapped : OVERLAPPED; lock_length : Z }.

Section FileLock.

(** [sys.version_info.major] *)
Variable version_major : Z.

(** [FileLock.__init__] *)
Definition FileLock_init : FileLock :=
  mkFileLock (mkOVERLAPPED 0 0 0)
             (if Z.eqb version_major 2 then -1 else 2 ^ 31 - 1).

(** [except IOError as exc_value: raise LockException(LOCK_FAILED,
    exc_value.strerror, handle=handle)] *)
Definition wrap_IOError {A : Type} (handle : IO) (e : exn) : option (M A) :=
  match e with
  | IOError strerror => Some (raise (LockException LOCK_FAILED strerror handle))
  | _ => None
  end.

Definition lock_shared (self : FileLock) (handle : IO) (flags : Z) : M unit :=
  let mode :=
    if Z.eqb version_major 2 then
      if has_flag flags LOCK.NB then win32.LOCKFILE_FAIL_IMMEDIATELY else 0
    else
      if has_flag flags LOCK.NB then msvcrt.LK_NBRLCK else msvcrt.LK_RLCK in
  fd ← fileno handle;
  file_handle ← _get_osfhandle fd;
  try_except
    (LockFileEx file_handle mode 0 (-0x10000) (overlapped self))
    (fun e =>
       match e with
       | pywin_error winerror _ strerror =>
           Some (if Z.eqb winerror win32.ERROR_LOCK_VIOLATION
                 then raise (LockException LOCK_FAILED strerror handle)
                 else raise e)
       | _ => None
       end).

Definition lock_exclusive (self : FileLock) (handle : IO) (flags : Z) : M unit :=
  let mode := if has_flag flags LOCK.NB then msvcrt.LK_NBLCK else msvcrt.LK_LOCK in
  try_except
    (save_position ← tell handle;
     (if truthy save_position then seek handle 0 else mret tt);;
     try_finally
       (try_except
          (fd ← fileno handle; locking fd mode (lock_length self))
          (wrap_IOError handle))
       (if truthy save_position then seek handle save_position else mret tt))
    (wrap_IOError handle).

(** [FileLock.lock]: [if flags & LOCK.SH: ... else: ...] *)
Definition lock (self : FileLock) (handle : IO) (flags : Z) : M unit :=
  if has_flag flags LOCK.SH
  then lock_shared self handle flags
  else lock_exclusive self handle flags.

(** The body of [except IOError as exc:] in [unlock]. *)
Definition unlock_fallback (self : FileLock) (handle : IO) (strerror : string) : M unit :=
  if String.eqb strerror "Permission denied" then
    fd ← fileno handle;
    file_handle ← _get_osfhandle fd;
    try_except
      (UnlockFileEx file_handle 0 (-0x10000) (overlapped self))
      (fun e =>
         match e with
         | pywin_error winerror _ strerror' =>
             Some (if Z.eqb winerror win32.ERROR_NOT_LOCKED
                   then mret tt
                   else raise (LockException LOCK_FAILED strerror' handle))
         | _ => None
         end)
  else raise (LockException LOCK_FAILED strerror handle).

(** [FileLock.unlock] *)
Definition unlock (self : FileLock) (handle : IO) : M unit :=
  try_except
    (save_position ← tell handle;
     (if truthy save_position then seek handle 0 else mret tt);;
     try_finally
       (try_except
          (fd ← fileno handle; locking fd LOCK.UN (lock_length self))
          (fun e =>
             match e with
             | IOError strerror => Some (unlock_fallback self handle strerror)
             | _ => None
             end))
       (if truthy save_position then seek handle save_position else mret tt))
    (wrap_IOError handle).

End FileLock.

(** ** Sample environments *)

Definition log_txt : IO := mkIO "log.txt" "w".

(** The position of the file object [handle] as the calls made so far show it:
    what its last [tell] returned or where its last [seek] that returned put
    it, whichever came later. *)
Fixpoint reported (handle : IO) (hist : list Event) : option Z :=
  match hist with
  | [] => None
  | (OpTell h, Ret pos) :: rest =>
      if decide (h = handle) then Some pos else reported handle rest
  | (OpSeek h pos, Ret _) :: rest =>
      if decide (h = handle) then Some pos else reported handle rest
  | _ :: rest => reported handle rest
  end.

(** A file object without a buffer (opened with [buffering=0]): its descriptor
    is where the file object is. *)
Definition unbuffered (handle : IO) : list Event -> Z -> Z :=
  fun hist _ => default 0 (reported handle hist).

(** Every call returns. *)
Definition env_ok : Env := mkEnv
  (fun _ c =>
     match c with
     | OpFileno _ => Ret 3
     | OpGetOsfhandle fd => Ret (fd + 1000)
     | _ => Ret 0
     end)
  (unbuffered log_txt).

(** One process and one file: the answers of the C runtime and of Win32 are
    computed from the calls that returned so far.  A region locked through
    [msvcrt.locking] is released only by [locking(fd, LK_UNLCK, n)], a region
    locked through [LockFileEx] only by [UnlockFileEx]; the messages are the
    ones quoted in the source. *)
Fixpoint crt_locked (hist : list Event) : bool :=
  match hist with
  | [] => false
  | (OpLocking _ mode _ _, Ret _) :: _ => negb (Z.eqb mode msvcrt.LK_UNLCK)
  | _ :: rest => crt_locked rest
  end.

Fixpoint range_locked (hist : list Event) : bool :=
  match hist with
  | [] => false
  | (OpLockFileEx _ _ _ _ _, Ret _) :: _ => true
  | (OpUnlockFileEx _ _ _ _, Ret _) :: _ => false
  | _ :: rest => range_locked rest
  end.

Definition win_os : Env := mkEnv
  (fun hist c =>
     match c with
     | OpFileno _ => Ret 3
     | OpGetOsfhandle fd => Ret (fd + 1000)
     | OpLocking _ mode _ _ =>
         if Z.eqb mode msvcrt.LK_UNLCK
         then if crt_locked hist then Ret 0 else Raises (IOError "Permission denied")
         else if crt_locked hist || range_locked hist
              then Raises (IOError "Permission denied") else Ret 0
     | OpLockFileEx _ _ _ _ _ =>
         if crt_locked hist
         then Raises (pywin_error win32.ERROR_LOCK_VIOLATION "LockFileEx"
                        "The process cannot access the file because another process has locked a portion of the file.")
         else Ret 0
     | OpUnlockFileEx _ _ _ _ =>
         if range_locked hist then Ret 0
         else Raises (pywin_error win32.ERROR_NOT_LOCKED "UnlockFileEx"
                        "The segment is already unlocked.")
     | _ => Ret 0
     end)
  (unbuffered log_txt).

(** The file was never locked: both unlock primitives refuse. *)
Definition env_unlocked : Env := mkEnv
  (fun _ c =>
     match c with
     | OpFileno _ => Ret 3
     | OpGetOsfhandle fd => Ret (fd + 1000)
     | OpLocking _ _ _ _ => Raises (IOError "Permission denied")
     | OpUnlockFileEx _ _ _ _ =>
         Raises (pywin_error win32.ERROR_NOT_LOCKED "UnlockFileEx"
                   "The segment is already unlocked.")
     | _ => Ret 0
     end)
  (unbuffered log_txt).

(** Another holder has the sentinel region. *)
Definition env_contended : Env := mkEnv
  (fun _ c =>
     match c with
     | OpFileno _ => Ret 3
     | OpGetOsfhandle fd => Ret (fd + 1000)
     | OpLockFileEx _ _ _ _ _ =>
         Raises (pywin_error win32.ERROR_LOCK_VIOLATION "LockFileEx" "lock violation")
     | _ => Ret 0
     end)
  (unbuffered log_txt).

(** A file object whose [seek] to a position other than 0 raises. *)
Definition env_restore_fails : Env := mkEnv
  (fun _ c =>
     match c with
     | OpFileno _ => Ret 3
     | OpSeek _ pos => if Z.eqb pos 0 then Ret 0 else Raises (IOError "Invalid argument")
     | _ => Ret 0
     end)
  (unbuffered log_txt).


(** A world in which every cursor is at [pos] and nothing has been called. *)
Definition world_at (pos : Z) : World := mkWorld (fun _ => pos) [].

(** [sys.version_info.major] under Python 3. *)
Definition py3 : Z := 3.

(** ** Events *)

Definition is_seek (c : Call) : bool :=
  match c with OpSeek _ _ => true | _ => false end.

Definition is_tell (c : Call) : bool :=
  match c with OpTell _ => true | _ => false end.

Definition is_locking (c : Call) : bool :=
  match c with OpLocking _ _ _ _ => true | _ => false end.

(** A request to release a lock: [locking(fd, LK_UNLCK, n)] or [UnlockFileEx]. *)
Definition is_unlock_request (c : Call) : bool :=
  match c with
  | OpLocking _ mode _ _ => Z.eqb mode msvcrt.LK_UNLCK
  | OpUnlockFileEx _ _ _ _ => true
  | _ => false
  end.

Definition returned (r : Reply) : bool :=
  match r with Ret _ => true | Raises _ => false end.

(** [issued w w' evs]: going from [w] to [w'] the calls [evs] were made (most
    recent first). *)
Definition issued (w w' : World) (evs : list Event) : Prop :=
  history w' = evs ++ history w.

(** [only_calls ok w w']: from [w] to [w'] only calls accepted by [ok] were
    made. *)
Definition only_calls (ok : Call -> bool) (w w' : World) : Prop :=
  exists evs, issued w w' evs /\ Forall (fun ev : Event => ok ev.1 = true) evs.

(** [same_cursors w w']: no cursor moved. *)
Definition same_cursors (w w' : World) : Prop :=
  forall h, cursor w' h = cursor w h.

(** [preserves R m]: whatever the environment answers, running [m] takes a
    world to one related to it by [R]. *)
Definition preserves (R : World -> World -> Prop) {A : Type} (m : M A) : Prop :=
  forall env w, R w (m env w).2.

(** The calls of the exclusive branch: reading and moving the cursor, and the
    whole-file primitive. *)
Definition exclusive_only (c : Call) : bool := is_tell c || is_seek c || is_locking c.

(** A call that is neither a request to release a lock nor a range lock, and
    whose mode, if it is [msvcrt.locking], is the blocking [LK_LOCK]. *)
Definition blocking_exclusive_call (c : Call) : bool :=
  match c with
  | OpLocking _ mode _ _ => Z.eqb mode msvcrt.LK_LOCK
  | OpLockFileEx _ _ _ _ _ => false
  | OpUnlockFileEx _ _ _ _ => false
  | _ => true
  end.

(** A call that takes no lock: any [msvcrt.locking] is the release. *)
Definition releasing_call (c : Call) : bool :=
  match c with
  | OpLocking _ mode _ _ => Z.eqb mode msvcrt.LK_UNLCK
  | OpLockFileEx _ _ _ _ _ => false
  | _ => true
  end.

Definition is_permission_denied (e : exn) : bool :=
  match e with
  | IOError strerror => String.eqb strerror "Permission denied"
  | _ => false
  end.

Definition is_not_locked (e : exn) : bool :=
  match e with
  | pywin_error winerror _ _ => Z.eqb winerror win32.ERROR_NOT_LOCKED
  | _ => false
  end.



(** ** Objects, classes and the singleton mechanisms *)

(** A class is known by its name.  An object remembers its identity, its class
    and the arguments it was constructed with. *)
Abbreviation Class := string (only parsing).

Record Obj := mkObj { obj_id : nat; obj_class : Class; obj_args : list Z }.

#[global] Instance Obj_eq_dec : EqDecision Obj.
Proof. solve_decision. Defined.

(** [INSTANCES] is the dictionary of [library/constants.py]; [_instance] holds,
    for each class, the attribute of that name in the class's own namespace;
    [constructed] logs every object that was built (most recent first). *)
Record Runtime := mkRuntime {
  INSTANCES : gmap string Obj;
  _instance : gmap string Obj;
  next_id : nat;
  constructed : list Obj
}.

(** Modelled from the spec: [library/constants.py] is not among the sources;
    the instance table is created empty at process start. *)
Definition process_start : Runtime := mkRuntime ∅ ∅ 0 [].

(** The constructor call of the wrapper, for a constructor that returns: a new
    object of the class, built from the arguments of the call. *)
Definition construct (cls : Class) (args : list Z) (rt : Runtime) : Obj * Runtime :=
  let instance := mkObj (next_id rt) cls args in
  (instance,
   mkRuntime (INSTANCES rt) (_instance rt) (S (next_id rt)) (instance :: constructed rt)).

Definition store_INSTANCES (cls : Class) (instance : Obj) (rt : Runtime) : Runtime :=
  mkRuntime (<[cls := instance]> (INSTANCES rt)) (_instance rt) (next_id rt) (constructed rt).

(** The [wrapper] returned by [singleton(cls)].  The result is the subscript
    [INSTANCES[cls]]: [None] stands for a [KeyError]. *)
Definition singleton (cls : Class) (args : list Z) (rt : Runtime) : option Obj * Runtime :=
  let rt' :=
    match INSTANCES rt !! cls with
    | None =>
        let '(instance, rt1) := construct cls args rt in
        store_INSTANCES cls instance rt1
    | Some _ => rt
    end in
  (INSTANCES rt' !! cls, rt').

Section MetaSingleton.

(** [cls.__mro__]: the class itself, then its base classes in resolution
    order. *)
Variable mro : Class -> list Class.

(** Attribute lookup on a class walks its resolution order. *)
Fixpoint lookup_mro (attrs : gmap string Obj) (classes : list Class) : option Obj :=
  match classes with
  | [] => None
  | c :: rest =>
      match attrs !! c with
      | Some o => Some o
      | None => lookup_mro attrs rest
      end
  end.

(** [cls._instance]; [None] stands for an [AttributeError]. *)
Definition getattr_instance (cls : Class) (rt : Runtime) : option Obj :=
  lookup_mro (_instance rt) (mro cls).

(** [hasattr(cls, "_instance")] *)
Definition hasattr_instance (cls : Class) (rt : Runtime) : bool :=
  match getattr_instance cls rt with Some _ => true | None => false end.

(** [cls._instance = instance] writes the class's own namespace. *)
Definition setattr_instance (cls : Class) (instance : Obj) (rt : Runtime) : Runtime :=
  mkRuntime (INSTANCES rt) (<[cls := instance]> (_instance rt)) (next_id rt) (constructed rt).

(** [MetaSingleton.__call__] *)
Definition MetaSingleton_call (cls : Class) (args : list Z) (rt : Runtime)
  : option Obj * Runtime :=
  let rt' :=
    if hasattr_instance cls rt then rt
    else
      let '(instance, rt1) := construct cls args rt in
      setattr_instance cls instance rt1 in
  (getattr_instance cls rt', rt').

End MetaSingleton.

(** A sequence of construction calls, each with its own arguments. *)
Fixpoint call_all (callee : Class -> list Z -> Runtime -> option Obj * Runtime)
    (calls : list (Class * list Z)) (rt : Runtime) : list (option Obj) * Runtime :=
  match calls with
  | [] => ([], rt)
  | (cls, args) :: rest =>
      let '(r, rt1) := callee cls args rt in
      let '(rs, rt2) := call_all callee rest rt1 in
      (r :: rs, rt2)
  end.

(** ** Threads calling the [singleton] wrapper

    The wrapper makes four accesses to shared state, each of them atomic: the
    membership test, the constructor call, the store and the final subscript.
    A thread is at one of these points; a schedule says which thread moves
    next.  Nothing in the wrapper waits for another thread. *)
Inductive pc :=
| AtCheck
| AtConstruct
| AtStore (instance : Obj)
| AtReturn
| Finished (result : option Obj).

Record Thread := mkThread { t_cls : Class; t_args : list Z; t_pc : pc }.

Definition step_thread (t : Thread) (rt : Runtime) : Thread * Runtime :=
  match t_pc t with
  | AtCheck =>
      match INSTANCES rt !! t_cls t with
      | None => (mkThread (t_cls t) (t_args t) AtConstruct, rt)
      | Some _ => (mkThread (t_cls t) (t_args t) AtReturn, rt)
      end
  | AtConstruct =>
      let '(instance, rt1) := construct (t_cls t) (t_args t) rt in
      (mkThread (t_cls t) (t_args t) (AtStore instance), rt1)
  | AtStore instance =>
      (mkThread (t_cls t) (t_args t) AtReturn, store_INSTANCES (t_cls t) instance rt)
  | AtReturn =>
      (mkThread (t_cls t) (t_args t) (Finished (INSTANCES rt !! t_cls t)), rt)
  | Finished _ => (t, rt)
  end.

(** One move of thread number [i]; a number outside the pool is skipped. *)
Definition step_pool (i : nat) (st : list Thread * Runtime) : list Thread * Runtime :=
  match st.1 !! i with
  | Some t =>
      let '(t', rt') := step_thread t st.2 in
      (<[i := t']> st.1, rt')
  | None => st
  end.

Definition run_schedule (schedule : list nat) (st : list Thread * Runtime)
  : list Thread * Runtime :=
  fold_left (fun s i => step_pool i s) schedule st.

(** Each thread of [order] runs its four steps before the next one starts. *)
Definition serial (order : list nat) : list nat :=
  flat_map (fun i => [i; i; i; i]) order.

(** Every object that was built sits in the slot of its class's table entry,
    and no class was built twice. *)
Definition one_per_class (slot : Runtime -> Class -> option Obj) (rt : Runtime) : Prop :=
  NoDup (obj_class <$> constructed rt) /\
  forall o, o ∈ constructed rt -> is_Some (slot rt (obj_class o)).

(** A class [Child] derived from [Base]; every other class stands alone. *)
Definition mro_sample : Class -> list Class := fun c =>
  if String.eqb c "Child" then ["Child"; "Base"]%string else [c].

(** Two threads that call the wrapper of the same class for the first time. *)
Definition racing_pool : list Thread :=
  [mkThread "FileLock" [] AtCheck; mkThread "FileLock" [] AtCheck].

(** ** Vocabulary for the further properties *)

(** Every character of [s] is one of [chars]. *)
Fixpoint all_in (chars s : string) : bool :=
  match s with
  | EmptyString => true
  | String c rest => in_chars c chars && all_in chars rest
  end.

(** [s] begins, or ends, with one of [chars]. *)
Definition starts_in (chars s : string) : bool :=
  match s with
  | EmptyString => false
  | String c _ => in_chars c chars
  end.

Fixpoint ends_in (chars s : string) : bool :=
  match s with
  | EmptyString => false
  | String c EmptyString => in_chars c chars
  | String _ rest => ends_in chars rest
  end.

(** A request to take a lock: [locking] with a mode other than [LK_UNLCK], or
    [LockFileEx]. *)
Definition is_lock_request (c : Call) : bool :=
  match c with
  | OpLocking _ mode _ _ => negb (Z.eqb mode msvcrt.LK_UNLCK)
  | OpLockFileEx _ _ _ _ _ => true
  | _ => false
  end.

Definition is_UnlockFileEx (c : Call) : bool :=
  match c with OpUnlockFileEx _ _ _ _ => true | _ => false end.

(** How many of the events are calls accepted by [p]. *)
Fixpoint count_calls (p : Call -> bool) (evs : list Event) : nat :=
  match evs with
  | [] => O
  | ev :: rest => ((if p ev.1 then 1 else 0) + count_calls p rest)%nat
  end.

(** Some event is a call accepted by [p] that returned. *)
Definition some_returned (p : Call -> bool) (evs : list Event) : bool :=
  existsb (fun ev : Event => p ev.1 && returned ev.2) evs.

(** Some event is a call accepted by [p] that raised an exception accepted
    by [q]. *)
Definition some_raised (p : Call -> bool) (q : exn -> bool) (evs : list Event) : bool :=
  existsb (fun ev : Event =>
             p ev.1 && match ev.2 with Raises e => q e | Ret _ => false end) evs.

(** [win32con.LOCKFILE_EXCLUSIVE_LOCK], the other flag bit of [LockFileEx]. *)
Definition LOCKFILE_EXCLUSIVE_LOCK : Z := 2.

(** [locking(fd, LK_UNLCK, n)], the whole-file release. *)
Definition is_release_by_locking (c : Call) : bool :=
  match c with
  | OpLocking _ mode _ _ => Z.eqb mode msvcrt.LK_UNLCK
  | _ => false
  end.

(** The calls of the statement [locking(handle.fileno(), LOCK.UN, n)]. *)
Definition in_release_statement (c : Call) : bool :=
  match c with
  | OpFileno _ => true
  | _ => is_release_by_locking c
  end.

(** [handle.fileno()] returned [fd] among these events. *)
Definition fileno_gave (handle : IO) (fd : Z) (evs : list Event) : bool :=
  existsb (fun ev : Event =>
             match ev with
             | (OpFileno h, Ret v) => bool_decide (h = handle) && Z.eqb v fd
             | _ => false
             end) evs.

(** [_get_osfhandle] returned [hfile] among these events. *)
Definition osfhandle_gave (hfile : Z) (evs : list Event) : bool :=
  existsb (fun ev : Event =>
             match ev with
             | (OpGetOsfhandle _, Ret v) => Z.eqb v hfile
             | _ => false
             end) evs.

(** Every call among [evs] (most recent first) is about [handle]: a method of
    a file object is called on [handle]; a descriptor that is passed on was
    returned by an earlier [handle.fileno()]; an OS handle that is passed on
    was returned by an earlier [_get_osfhandle]. *)
Fixpoint about_handle (handle : IO) (evs : list Event) : bool :=
  match evs with
  | [] => true
  | (c, _) :: earlier =>
      match c with
      | OpTell h | OpSeek h _ | OpFileno h => bool_decide (h = handle)
      | OpLocking fd _ _ _ | OpGetOsfhandle fd => fileno_gave handle fd earlier
      | OpLockFileEx hfile _ _ _ _ | OpUnlockFileEx hfile _ _ _ => osfhandle_gave hfile earlier
      end && about_handle handle earlier
  end.

(** What [LockFileEx] is handed in the shared branch, read as Win32 reads it:
    the sentinel region, and the two flag bits. *)
Definition shared_request (fail_immediately exclusive : bool) (c : Call) : bool :=
  match c with
  | OpLockFileEx _ flags lo hi _ =>
      Bool.eqb (has_flag flags win32.LOCKFILE_FAIL_IMMEDIATELY) fail_immediately
      && Bool.eqb (has_flag flags LOCKFILE_EXCLUSIVE_LOCK) exclusive
      && Z.eqb lo 0 && Z.eqb hi (-0x10000)
  | _ => true
  end.

(** An interrupt during [locking] reaches the caller as it is. *)
Definition env_interrupted : Env := mkEnv
  (fun _ c =>
     match c with
     | OpFileno _ => Ret 3
     | OpLocking _ _ _ _ => Raises (OtherError "KeyboardInterrupt")
     | _ => Ret 0
     end)
  (unbuffered log_txt).

(** A class [Child] with the two base classes [Left] and [Right]. *)
Definition mro_two_bases : Class -> list Class := fun c =>
  if String.eqb c "Child" then ["Child"; "Left"; "Right"]%string else [c].

(** What holds of the threads and the table at every moment of every
    schedule: the table maps a class to an object of that class; a thread
    about to store holds an object of its class; a thread about to read finds
    an entry; a thread that finished got an object of its class. *)
Definition thread_ok (rt : Runtime) (t : Thread) : Prop :=
  match t_pc t with
  | AtStore o => obj_class o = t_cls t
  | AtReturn => is_Some (INSTANCES rt !! t_cls t)
  | Finished r => exists o, r = Some o /\ obj_class o = t_cls t
  | _ => True
  end.

Definition table_ok (rt : Runtime) : Prop :=
  forall c o, INSTANCES rt !! c = Some o -> obj_class o = c.

Definition pool_ok (st : list Thread * Runtime) : Prop :=
  table_ok st.2 /\ forall t, t ∈ st.1 -> thread_ok st.2 t.

(** [msvcrt.locking] is called with the descriptor at the start of the file. *)
Definition locking_from_start (c : Call) : bool :=
  match c with
  | OpLocking _ _ _ at_pos => Z.eqb at_pos 0
  | _ => true
  end.

(** The descriptor [fd] is kept where the file object [handle] is: wherever
    its last [tell] reported it or its last [seek] put it. *)
Definition descriptor_follows (env : Env) (handle : IO) (fd : Z) : Prop :=
  forall hist pos, reported handle hist = Some pos -> descriptor_offset env hist fd = pos.



(** ** [library/encryption.py] *)

Module encryption.

(** *** [Cypher._random] and [Cypher.generate] *)

(** The constants of Python's [string] module. *)
Definition ascii_uppercase : string := "ABCDEFGHIJKLMNOPQRSTUVWXYZ".
Definition ascii_lowercase : string := "abcdefghijklmnopqrstuvwxyz".
Definition digits : string := "0123456789".
Definition punctuation : string :=
  String.append "!" (String (ascii_of_nat 34) "#$%&'()*+,-./:;<=>?@[\]^_`{|}~").

(** [random.choice(seq)] is [seq[randbelow(len(seq))]]; [r] is the raw draw,
    brought below the length.  [None] stands for the [IndexError] of an empty
    sequence. *)
Definition choice (r : nat) (seq : string) : option ascii :=
  String.get (r mod String.length seq) seq.

(** ["".join(...)] of one-character strings. *)
Definition join (cs : list ascii) : string := fold_right String EmptyString cs.

(** [range(length)]: empty when [length] is not positive. *)
Definition range (length : Z) : list nat := seq 0 (Z.to_nat length).

(** [rng k] is the [k]-th raw draw of the generator from now on. *)
Definition _random (rng : nat -> nat) (length : Z) : option string :=
  let chars :=
    String.append ascii_uppercase
      (String.append ascii_lowercase (String.append digits punctuation)) in
  join <$> mapM (fun x => choice (rng x) chars) (range length).

(** [generate(self, length=16)]; [None] is the omitted argument. *)
Definition generate (rng : nat -> nat) (length : option Z) : option string :=
  _random rng (default 16 length).

(** *** The collaborators *)

(** Python values that travel through the module. *)
Inductive Val :=
| VNone
| VStr (s : string)
| VBytes (b : string).

(** [InvalidToken] of [cryptography.fernet], the three errors of [keyring]
    and of [library/exceptions.py], and any other exception. *)
Inductive exn :=
| InvalidToken
| PasswordGetError (msg : string)
| PasswordSetError (msg : string)
| PasswordDeleteError (msg : string)
| OtherError (name : string).

(** The calls that leave the module: [encode] and [decode] of
    [library/utils.py] (not among the sources), the key derivation, Base64,
    Fernet and the keyring.  A key derivation object is known by its salt, a
    Fernet object by its key. *)
Inductive Ext :=
| Encode (v : Val)
| Decode (v : Val)
| NewPBKDF2HMAC (length : Z) (salt : Val) (iterations : Z)
| Derive (salt value : Val)
| B64encode (v : Val)
| NewFernet (key : Val)
| FernetEncrypt (key data : Val)
| FernetDecrypt (key token : Val)
| KeyringGet (service username : string)
| KeyringSet (service username : string) (password : Val)
| KeyringDelete (service username : string).

Inductive Reply :=
| Ret (v : Val)
| Raises (e : exn).

(** The [Cypher] object of a [KeyVault]: its [__key], and the log of the calls
    made so far (most recent first). *)
Record State := mkState { __key : Val; log : list (Ext * Reply) }.

Definition Env : Type := list (Ext * Reply) -> Ext -> Reply.

Inductive Result (A : Type) :=
| Ok (a : A)
| Err (e : exn).
Arguments Ok {A} a.
Arguments Err {A} e.

Definition E (A : Type) : Type := Env -> State -> Result A * State.

#[global] Instance E_ret : MRet E := fun A a _ st => (Ok a, st).

#[global] Instance E_bind : MBind E := fun A B f m env st =>
  match m env st with
  | (Ok a, st') => f a env st'
  | (Err e, st') => (Err e, st')
  end.

Definition raise {A : Type} (e : exn) : E A := fun _ st => (Err e, st).

Definition try_except {A : Type} (body : E A) (handler : exn -> option (E A)) : E A :=
  fun env st =>
    match body env st with
    | (Err e, st') =>
        match handler e with
        | Some h => h env st'
        | None => (Err e, st')
        end
    | done => done
    end.

Definition ext (c : Ext) : E Val := fun env st =>
  match env (log st) c with
  | Ret v => (Ok v, mkState (__key st) ((c, Ret v) :: log st))
  | Raises e => (Err e, mkState (__key st) ((c, Raises e) :: log st))
  end.

Definition get_key : E Val := fun _ st => (Ok (__key st), st).

Definition set_key (k : Val) : E unit := fun _ st => (Ok tt, mkState k (log st)).

(** *** [class Symmetric] *)

(** [Symmetric.__init__]: the object is its key derivation function, known by
    the salt it was made with. *)
Definition Symmetric (salt : Val) : E Val :=
  salt' ← ext (Encode salt);
  _ ← ext (NewPBKDF2HMAC 32 salt' 200000);
  mret salt'.

(** [Symmetric.key], with [__derive] inlined. *)
Definition Symmetric_key (self : Val) (value : Val) : E Val :=
  value' ← ext (Encode value);
  derived ← ext (Derive self value');
  ext (B64encode derived).

(** *** [class Cypher] *)

(** [Cypher.password] *)
Definition password (value salt : Val) : E unit :=
  salt' ← ext (Encode salt);
  symmetric ← Symmetric salt';
  value' ← ext (Encode value);
  key ← Symmetric_key symmetric value';
  set_key key.

(** [Cypher.encrypt]: [self.__cypher(self.__key)] is built before the
    argument of [encrypt] is evaluated. *)
Definition encrypt (value : Val) : E Val :=
  key ← get_key;
  _ ← ext (NewFernet key);
  data ← ext (Encode value);
  token ← ext (FernetEncrypt key data);
  ext (Decode token).

(** [except X as e: raise e] *)
Definition reraise {A : Type} (caught : exn -> bool) (e : exn) : option (E A) :=
  if caught e then Some (raise e) else None.

Definition is_InvalidToken (e : exn) : bool :=
  match e with InvalidToken => true | _ => false end.

Definition is_PasswordGetError (e : exn) : bool :=
  match e with PasswordGetError _ => true | _ => false end.

Definition is_PasswordSetError (e : exn) : bool :=
  match e with PasswordSetError _ => true | _ => false end.

Definition is_PasswordDeleteError (e : exn) : bool :=
  match e with PasswordDeleteError _ => true | _ => false end.

(** [Cypher.decrypt] *)
Definition decrypt (value : Val) : E Val :=
  try_except
    (key ← get_key;
     _ ← ext (NewFernet key);
     token ← ext (Encode value);
     data ← ext (FernetDecrypt key token);
     ext (Decode data))
    (reraise is_InvalidToken).

(** *** [class KeyVault] *)

(** [KeyVault.get_password]; falling off the end returns [None]. *)
Definition get_password (service username : string) : E Val :=
  password ← try_except (ext (KeyringGet service username))
                        (reraise is_PasswordGetError);
  match password with
  | VNone => mret VNone
  | _ => try_except (decrypt password) (reraise is_InvalidToken)
  end.

(** [KeyVault.set_password] *)
Definition set_password (service username : string) (password : Val) : E unit :=
  password' ← encrypt password;
  try_except (ext (KeyringSet service username password') ;; mret tt)
             (reraise is_PasswordSetError).

(** [KeyVault.del_password] *)
Definition del_password (service username : string) : E unit :=
  try_except (ext (KeyringDelete service username) ;; mret tt)
             (reraise is_PasswordDeleteError).

(** The calls made from [st] to [st'] are [evs] (most recent first). *)
Definition logged (st st' : State) (evs : list (Ext * Reply)) : Prop :=
  log st' = evs ++ log st.

Definition is_KeyringSet (c : Ext) : bool :=
  match c with KeyringSet _ _ _ => true | _ => false end.

(** A keyring without the entry. *)
Definition env_empty_keyring : Env := fun _ c =>
  match c with
  | KeyringGet _ _ => Ret VNone
  | _ => Ret (VBytes "")
  end.

(** Collaborators that answer: Fernet is played by a marker in front of the
    data, the codecs change the type only. *)
Definition env_toy : Env := fun _ c =>
  match c with
  | Encode (VStr s) => Ret (VBytes s)
  | Encode v => Ret v
  | Decode (VBytes b) => Ret (VStr b)
  | Decode v => Ret v
  | NewPBKDF2HMAC _ _ _ => Ret VNone
  | Derive _ value => Ret value
  | B64encode v => Ret v
  | NewFernet _ => Ret VNone
  | FernetEncrypt _ (VBytes b) => Ret (VBytes (String.append "gAAAAA" b))
  | FernetEncrypt _ _ => Raises (OtherError "TypeError")
  | FernetDecrypt _ _ => Raises InvalidToken
  | KeyringGet _ _ => Ret (VStr "gAAAAAx")
  | KeyringSet _ _ _ => Ret VNone
  | KeyringDelete _ _ => Ret VNone
  end.

(** A key derivation that fails. *)
Definition env_no_kdf : Env := fun _ c =>
  match c with
  | Derive _ _ => Raises (OtherError "AlreadyFinalized")
  | _ => Ret (VBytes "")
  end.

Definition fresh (key : Val) : State := mkState key [].


(** A keyring whose entry no longer decrypts. *)
Definition env_stale_entry : Env := fun _ c =>
  match c with
  | KeyringGet _ _ => Ret (VStr "gAAAAAx")
  | FernetDecrypt _ _ => Raises InvalidToken
  | _ => Ret (VBytes "")
  end.

End encryption.

(** * Properties *)

(** ** The model runs *)

Example get_mode_rb : _get_mode (mkIO "f" "rb") = "r".
Proof. reflexivity. Qed.

Example get_mode_w_plus : _get_mode (mkIO "f" "w+b") = "w".
Proof. reflexivity. Qed.

Example get_flags_rb : get_flags (mkIO "f" "rb") = Some LOCK.SH.
Proof. vm_compute. reflexivity. Qed.

Example lock_then_unlock_twice :
  let self := FileLock_init py3 in
  let '(r1, w1) := lock py3 self log_txt (Z.lor LOCK.EX LOCK.NB) win_os (world_at 7) in
  let '(r2, w2) := unlock self log_txt win_os w1 in
  let '(r3, w3) := unlock self log_txt win_os w2 in
  (r1, r2, r3) = (Ok tt, Ok tt, Ok tt) /\ cursor w3 log_txt = 7.
Proof. vm_compute. split; reflexivity. Qed.

(** ** The mode table *)

Lemma has_flag_true (flags bit : Z) : has_flag flags bit = true <-> Z.land flags bit <> 0.
Proof.
  unfold has_flag. rewrite negb_true_iff, Z.eqb_neq. reflexivity.
Qed.

Lemma flags_lookup_other (m : string) :
  m <> "w"%string -> m <> "a"%string -> m <> "x"%string -> m <> "r"%string ->
  _flags !! m = None.
Proof.
  intros Hw Ha Hx Hr. unfold _flags.
  rewrite !lookup_insert_ne by congruence.
  apply lookup_empty.
Qed.

(** C1 (as amended): [get_flags] returns [LOCK.EX] when the stripped mode is
    "w", "a" or "x", [LOCK.SH] when it is "r", and Python's [None] for any
    other mode string; it raises nothing. *)
Theorem get_flags_table (handle : IO) :
  get_flags handle =
    let m := _get_mode handle in
    if decide (m = "w"%string \/ m = "a"%string \/ m = "x"%string) then Some LOCK.EX
    else if decide (m = "r"%string) then Some LOCK.SH
    else None.
Proof.
  unfold get_flags. cbv zeta.
  set (m := _get_mode handle).
  destruct (decide (m = "w"%string \/ m = "a"%string \/ m = "x"%string))
    as [[Hm | [Hm | Hm]] | Hne]; [rewrite Hm; reflexivity ..|].
  destruct (decide (m = "r"%string)) as [Hm | Hr]; [rewrite Hm; reflexivity|].
  apply flags_lookup_other; intros Hm; tauto.
Qed.

(** C1 (as stated) fails: a handle opened with mode "rw" resolves to a mode
    outside the table and [get_flags] returns [None] instead of raising. *)
Lemma get_flags_unknown_mode_returns_None :
  _get_mode (mkIO "sock" "rw") = "rw"%string /\ get_flags (mkIO "sock" "rw") = None.
Proof. split; reflexivity. Qed.

(** ** Relations that every step of a computation maintains *)

Section Preserves.

Variable R : World -> World -> Prop.
Hypothesis R_refl : forall w, R w w.
Hypothesis R_trans : forall a b c, R a b -> R b c -> R a c.

Lemma preserves_ret {A : Type} (a : A) : preserves R (mret a).
Proof. intros env w. apply R_refl. Qed.

Lemma preserves_raise {A : Type} (e : exn) : preserves R (@raise A e).
Proof. intros env w. apply R_refl. Qed.

Lemma preserves_bind {A B : Type} (m : M A) (f : A -> M B) :
  preserves R m -> (forall a, preserves R (f a)) -> preserves R (m ≫= f).
Proof.
  intros Hm Hf env w. unfold mbind, M_bind.
  specialize (Hm env w).
  destruct (m env w) as [[a | e] w1]; simpl in *.
  - eapply R_trans; [exact Hm | apply Hf].
  - exact Hm.
Qed.

Lemma preserves_try_except {A : Type} (body : M A) (handler : exn -> option (M A)) :
  preserves R body ->
  (forall e h, handler e = Some h -> preserves R h) ->
  preserves R (try_except body handler).
Proof.
  intros Hb Hh env w. unfold try_except.
  specialize (Hb env w).
  destruct (body env w) as [[a | e] w1]; simpl in *; [exact Hb|].
  destruct (handler e) as [h |] eqn:Eh; simpl; [|exact Hb].
  eapply R_trans; [exact Hb | eapply Hh; exact Eh].
Qed.

Lemma preserves_try_finally {A : Type} (body : M A) (final : M unit) :
  preserves R body -> preserves R final -> preserves R (try_finally body final).
Proof.
  intros Hb Hf env w. unfold try_finally.
  specialize (Hb env w).
  destruct (body env w) as [r w1]; simpl in *.
  specialize (Hf env w1).
  destruct (final env w1) as [[u | e] w2]; simpl in *;
    eapply R_trans; eauto.
Qed.

Lemma preserves_if {A : Type} (b : bool) (m1 m2 : M A) :
  preserves R m1 -> preserves R m2 -> preserves R (if b then m1 else m2).
Proof. destruct b; auto. Qed.

Lemma preserves_wrap_IOError {A : Type} (handle : IO) (e : exn) (h : M A) :
  wrap_IOError handle e = Some h -> preserves R h.
Proof.
  destruct e; simpl; intros [= <-]. apply preserves_raise.
Qed.

End Preserves.

Lemma only_calls_refl (ok : Call -> bool) (w : World) : only_calls ok w w.
Proof. exists []. split; [reflexivity | constructor]. Qed.

Lemma only_calls_trans (ok : Call -> bool) (a b c : World) :
  only_calls ok a b -> only_calls ok b c -> only_calls ok a c.
Proof.
  intros (e1 & H1 & F1) (e2 & H2 & F2). exists (e2 ++ e1). split.
  - unfold issued in *. rewrite H2, H1. apply app_assoc.
  - apply Forall_app. split; assumption.
Qed.

Lemma only_calls_call (ok : Call -> bool) (c : Call) :
  ok c = true -> preserves (only_calls ok) (call c).
Proof.
  intros Hc env w. unfold call.
  destruct (reply_of env w c) as [v | e]; simpl;
    (eexists [_]; split; [reflexivity | repeat constructor; exact Hc]).
Qed.

Lemma same_cursors_refl (w : World) : same_cursors w w.
Proof. intros h. reflexivity. Qed.

Lemma same_cursors_trans (a b c : World) :
  same_cursors a b -> same_cursors b c -> same_cursors a c.
Proof. intros H1 H2 h. rewrite H2. apply H1. Qed.

Lemma same_cursors_call (c : Call) :
  is_seek c = false -> preserves same_cursors (call c).
Proof.
  intros Hc env w h. unfold call.
  destruct (reply_of env w c) as [v | e]; simpl; [|reflexivity].
  destruct c; simpl in *; try reflexivity; discriminate.
Qed.

(** ** Which calls the two branches of [lock] make *)

Section PreservesCalls.

Variable R : World -> World -> Prop.
Variable ok : Call -> bool.
Hypothesis R_refl : forall w, R w w.
Hypothesis R_trans : forall a b c, R a b -> R b c -> R a c.
Hypothesis R_call : forall c, ok c = true -> preserves R (call c).

Ltac compose :=
  repeat match goal with
    | |- preserves _ (mbind _ _) => apply (preserves_bind R R_trans)
    | |- preserves _ (try_except _ _) => apply (preserves_try_except R R_trans)
    | |- preserves _ (try_finally _ _) => apply (preserves_try_finally R R_trans)
    | |- preserves _ (mret _) => apply (preserves_ret R R_refl)
    | |- preserves _ (raise _) => apply (preserves_raise R R_refl)
    | |- preserves _ (if _ then _ else _) => apply (preserves_if R)
    | H : wrap_IOError _ _ = Some ?h |- preserves _ ?h =>
        apply (preserves_wrap_IOError R R_refl _ _ _ H)
    | |- forall _, _ => intro
    end.

Lemma preserves_tell (handle : IO) :
  ok (OpTell handle) = true -> preserves R (tell handle).
Proof. intros H. apply R_call, H. Qed.

Lemma preserves_seek (handle : IO) (pos : Z) :
  ok (OpSeek handle pos) = true -> preserves R (seek handle pos).
Proof. intros H. unfold seek. compose. apply R_call, H. Qed.

Lemma preserves_fileno (handle : IO) :
  ok (OpFileno handle) = true -> preserves R (fileno handle).
Proof. intros H. apply R_call, H. Qed.

Lemma preserves_get_osfhandle (fd : Z) :
  ok (OpGetOsfhandle fd) = true -> preserves R (_get_osfhandle fd).
Proof. intros H. apply R_call, H. Qed.

Lemma preserves_locking (fd mode nbytes : Z) :
  (forall pos, ok (OpLocking fd mode nbytes pos) = true) ->
  preserves R (locking fd mode nbytes).
Proof.
  intros H env w. unfold locking.
  apply (preserves_bind R R_trans); [apply R_call, H | intro; apply (preserves_ret R R_refl)].
Qed.

Lemma preserves_LockFileEx (hfile flags lo hi : Z) (ol : OVERLAPPED) :
  ok (OpLockFileEx hfile flags lo hi ol) = true ->
  preserves R (LockFileEx hfile flags lo hi ol).
Proof. intros H. unfold LockFileEx. compose. apply R_call, H. Qed.

Lemma preserves_UnlockFileEx (hfile lo hi : Z) (ol : OVERLAPPED) :
  ok (OpUnlockFileEx hfile lo hi ol) = true ->
  preserves R (UnlockFileEx hfile lo hi ol).
Proof. intros H. unfold UnlockFileEx. compose. apply R_call, H. Qed.

Lemma preserves_lock_shared (major : Z) (self : FileLock) (handle : IO) (flags : Z) :
  ok (OpFileno handle) = true ->
  (forall fd, ok (OpGetOsfhandle fd) = true) ->
  (forall hfile mode lo hi ol, ok (OpLockFileEx hfile mode lo hi ol) = true) ->
  preserves R (lock_shared major self handle flags).
Proof.
  intros Hf Hg Hl. unfold lock_shared. compose.
  - apply preserves_fileno, Hf.
  - apply preserves_get_osfhandle, Hg.
  - apply preserves_LockFileEx, Hl.
  - destruct e; try discriminate.
    match goal with H : Some _ = Some _ |- _ => injection H as <- end.
    compose.
Qed.

Lemma preserves_lock_exclusive (self : FileLock) (handle : IO) (flags : Z) :
  ok (OpTell handle) = true ->
  (forall pos, ok (OpSeek handle pos) = true) ->
  ok (OpFileno handle) = true ->
  (forall fd nbytes pos,
      ok (OpLocking fd (if has_flag flags LOCK.NB then msvcrt.LK_NBLCK else msvcrt.LK_LOCK)
            nbytes pos) = true) ->
  preserves R (lock_exclusive self handle flags).
Proof.
  intros Ht Hs Hf Hl. unfold lock_exclusive. compose.
  - apply preserves_tell, Ht.
  - apply preserves_seek, Hs.
  - apply preserves_fileno, Hf.
  - apply preserves_locking. intro pos. apply Hl.
  - apply preserves_seek, Hs.
Qed.

Lemma preserves_unlock (self : FileLock) (handle : IO) :
  ok (OpTell handle) = true ->
  (forall pos, ok (OpSeek handle pos) = true) ->
  ok (OpFileno handle) = true ->
  (forall fd, ok (OpGetOsfhandle fd) = true) ->
  (forall fd nbytes pos, ok (OpLocking fd msvcrt.LK_UNLCK nbytes pos) = true) ->
  (forall hfile lo hi ol, ok (OpUnlockFileEx hfile lo hi ol) = true) ->
  preserves R (unlock self handle).
Proof.
  intros Ht Hs Hf Hg Hl Hu. unfold unlock. compose.
  - apply preserves_tell, Ht.
  - apply preserves_seek, Hs.
  - apply preserves_fileno, Hf.
  - apply preserves_locking. intro pos. apply Hl.
  - destruct e; try discriminate.
    match goal with H : Some _ = Some _ |- _ => injection H as <- end.
    unfold unlock_fallback. compose.
    + apply preserves_fileno, Hf.
    + apply preserves_get_osfhandle, Hg.
    + apply preserves_UnlockFileEx, Hu.
    + destruct e; try discriminate.
      match goal with H : Some _ = Some _ |- _ => injection H as <- end.
      compose.
  - apply preserves_seek, Hs.
Qed.

End PreservesCalls.

(** ** Which branch [lock] takes *)

Lemma land_ldiff_pow2 (flags : Z) (i j : Z) :
  0 <= i -> 0 <= j -> i <> j ->
  Z.land (Z.ldiff flags (2 ^ i)) (2 ^ j) = Z.land flags (2 ^ j).
Proof.
  intros Hi Hj Hij. apply Z.bits_inj'. intros n Hn.
  rewrite !Z.land_spec, Z.ldiff_spec, !Z.pow2_bits_eqb by assumption.
  destruct (Z.eqb_spec j n) as [<- | Hjn]; [|rewrite !andb_false_r; reflexivity].
  destruct (Z.eqb_spec i j) as [Heq | _]; [contradiction|].
  rewrite andb_true_r. reflexivity.
Qed.

Lemma has_flag_ldiff_EX (flags bit : Z) :
  bit = LOCK.SH \/ bit = LOCK.NB ->
  has_flag (Z.ldiff flags LOCK.EX) bit = has_flag flags bit.
Proof.
  unfold has_flag. intros [-> | ->].
  - change LOCK.EX with (2 ^ 0). change LOCK.SH with (2 ^ 1).
    rewrite land_ldiff_pow2 by lia. reflexivity.
  - change LOCK.EX with (2 ^ 0). change LOCK.NB with (2 ^ 2).
    rewrite land_ldiff_pow2 by lia. reflexivity.
Qed.

(** [lock] never looks at the [EX] bit. *)
Lemma lock_ignores_EX (major : Z) (self : FileLock) (handle : IO) (flags : Z) :
  lock major self handle (Z.ldiff flags LOCK.EX) = lock major self handle flags.
Proof.
  unfold lock, lock_shared, lock_exclusive.
  rewrite !has_flag_ldiff_EX by auto. reflexivity.
Qed.

Ltac unfold_ops :=
  unfold lock, lock_shared, lock_exclusive, unlock, unlock_fallback, wrap_IOError,
    try_except, try_finally, seek, tell, fileno, locking, _get_osfhandle,
    LockFileEx, UnlockFileEx, call, reply_of, raise, mbind, M_bind, mret, M_ret.

(** Proof steps: one case per answer of the environment. *)
Ltac case_step env :=
  cbn [history cursor effect fst snd];
  match goal with
  | |- context [match answer env ?h ?c with _ => _ end] =>
      destruct (env h c) as [? | ?] eqn:?
  | |- context [match ?e with IOError _ => _ | _ => _ end] => is_var e; destruct e
  | |- context [if ?b then _ else _] => destruct b eqn:?
  end.

Ltac restore_failed :=
  match goal with
  | H : forall hist, returned (answer ?env hist ?c) = true, E : answer ?env ?h ?c = Raises _ |- _ =>
      exfalso; specialize (H h); rewrite E in H; discriminate H
  end.

Ltac prefix_of l base :=
  lazymatch l with
  | base => constr:(@nil Event)
  | ?x :: ?rest => let r := prefix_of rest base in constr:(x :: r)
  end.

Ltac give_issued :=
  cbn [history cursor effect fst snd]; unfold issued; cbn [history];
  lazymatch goal with
  | |- exists evs, ?l = evs ++ ?b /\ _ =>
      let p := prefix_of l b in exists p; split; [reflexivity|]
  end.

Ltac open_all :=
  unfold lock, lock_shared, lock_exclusive, unlock, unlock_fallback, wrap_IOError,
    try_except, try_finally, seek, tell, fileno, locking, _get_osfhandle,
    LockFileEx, UnlockFileEx, call, reply_of, raise, mbind, M_bind, mret, M_ret.

Ltac handle_step env handle Ht Hs Hf :=
  cbn [history cursor effect fst snd];
  match goal with
  | |- context [answer env ?h (OpFileno handle)] => rewrite (Hf h)
  | |- context [match answer env ?h (OpTell handle) with _ => _ end] =>
      let E := fresh "E" in
      destruct (env h (OpTell handle)) eqn:E;
      [|exfalso; pose proof (Ht h) as Hr; rewrite E in Hr; discriminate Hr]
  | |- context [match answer env ?h (OpSeek handle ?p) with _ => _ end] =>
      let E := fresh "E" in
      destruct (env h (OpSeek handle p)) eqn:E;
      [|exfalso; pose proof (Hs h p) as Hr; rewrite E in Hr; discriminate Hr]
  end.

(** C2 (as amended): when both the [EX] and the [SH] bit are set the shared
    branch runs: the cursor is neither read nor moved, [msvcrt.locking] is not
    called, the range primitive [LockFileEx] is called on the sentinel region
    as soon as the descriptor and the OS handle are obtained, and clearing the
    [EX] bit changes nothing. *)
Theorem lock_both_bits_takes_shared_branch
    (env : Env) (major : Z) (self : FileLock) (handle : IO) (flags : Z) (w : World) :
  has_flag flags LOCK.EX = true ->
  has_flag flags LOCK.SH = true ->
  let w' := (lock major self handle flags env w).2 in
  only_calls (fun c => negb (exclusive_only c)) w w' /\
  (forall fd hfile,
      env (history w) (OpFileno handle) = Ret fd ->
      env ((OpFileno handle, Ret fd) :: history w) (OpGetOsfhandle fd) = Ret hfile ->
      exists mode r,
        mode = (if Z.eqb major 2
                then if has_flag flags LOCK.NB then win32.LOCKFILE_FAIL_IMMEDIATELY else 0
                else if has_flag flags LOCK.NB then msvcrt.LK_NBRLCK else msvcrt.LK_RLCK) /\
        issued w w' [(OpLockFileEx hfile mode 0 (-0x10000) (overlapped self), r);
                     (OpGetOsfhandle fd, Ret hfile); (OpFileno handle, Ret fd)]) /\
  lock major self handle flags = lock major self handle (Z.ldiff flags LOCK.EX).
Proof.
  intros _ Hsh w'. subst w'. split; [|split].
  - unfold lock. rewrite Hsh.
    apply (preserves_lock_shared _ (fun c => negb (exclusive_only c))
             (only_calls_refl _) (only_calls_trans _) (only_calls_call _));
      reflexivity.
  - intros fd hfile Hfd Hh. unfold issued. unfold_ops. rewrite Hsh.
    rewrite Hfd. cbn [history]. rewrite Hh. cbn [history].
    match goal with |- context [answer env ?h ?c] => destruct (env h c) as [v | e] end.
    + eexists _, _. split; reflexivity.
    + destruct e as [| winerror f s | |]; try (eexists _, _; split; reflexivity).
      destruct (Z.eqb winerror _); eexists _, _; split; reflexivity.
  - symmetry. apply lock_ignores_EX.
Qed.

(** On [log.txt] with [EX | SH], the cursor at 7 and every call returning. *)
Lemma lock_both_bits_takes_shared_branch_witness :
  let w' := (lock py3 (FileLock_init py3) log_txt (Z.lor LOCK.EX LOCK.SH) env_ok (world_at 7)).2 in
  only_calls (fun c => negb (exclusive_only c)) (world_at 7) w' /\
  exists mode r,
    mode = msvcrt.LK_RLCK /\
    issued (world_at 7) w'
      [(OpLockFileEx 1003 mode 0 (-0x10000) (mkOVERLAPPED 0 0 0), r);
       (OpGetOsfhandle 3, Ret 1003); (OpFileno log_txt, Ret 3)].
Proof.
  destruct (lock_both_bits_takes_shared_branch env_ok py3 (FileLock_init py3) log_txt
              (Z.lor LOCK.EX LOCK.SH) (world_at 7) eq_refl eq_refl) as (H1 & H2 & _).
  split; [exact H1 | exact (H2 3 1003 eq_refl eq_refl)].
Defined.

(** C2 (as stated) fails: with [EX | SH] and the cursor at 7, [lock] calls
    [LockFileEx] on the sentinel region; it does not seek to 0 and it does not
    call [msvcrt.locking]. *)
Lemma lock_EX_SH_runs_LockFileEx :
  history (lock py3 (FileLock_init py3) log_txt (Z.lor LOCK.EX LOCK.SH) env_ok (world_at 7)).2
  = [(OpLockFileEx 1003 msvcrt.LK_RLCK 0 (-0x10000) (mkOVERLAPPED 0 0 0), Ret 0);
     (OpGetOsfhandle 3, Ret 1003); (OpFileno log_txt, Ret 3)]
  /\ history (lock py3 (FileLock_init py3) log_txt LOCK.EX env_ok (world_at 7)).2
  = [(OpSeek log_txt 7, Ret 0);
     (OpLocking 3 msvcrt.LK_LOCK (2 ^ 31 - 1) 0, Ret 0); (OpFileno log_txt, Ret 3);
     (OpSeek log_txt 0, Ret 0); (OpTell log_txt, Ret 7)].
Proof. split; reflexivity. Qed.

(** ** The shared branch *)

(** C5: with the [SH] bit set, a [LockFileEx] that fails with
    [ERROR_LOCK_VIOLATION] makes [lock] raise [LockException] with the message
    of the failure and the handle; any other exception of [LockFileEx] leaves
    [lock] unchanged; and no cursor is moved, since the branch never seeks. *)
Theorem lock_shared_branch_errors
    (env : Env) (major : Z) (self : FileLock) (handle : IO) (flags : Z) (w : World) :
  has_flag flags LOCK.SH = true ->
  let r := (lock major self handle flags env w).1 in
  let w' := (lock major self handle flags env w).2 in
  same_cursors w w' /\
  only_calls (fun c => negb (is_seek c)) w w' /\
  (forall fd hfile e,
      env (history w) (OpFileno handle) = Ret fd ->
      env ((OpFileno handle, Ret fd) :: history w) (OpGetOsfhandle fd) = Ret hfile ->
      env ((OpGetOsfhandle fd, Ret hfile) :: (OpFileno handle, Ret fd) :: history w)
          (OpLockFileEx hfile
             (if Z.eqb major 2
              then if has_flag flags LOCK.NB then win32.LOCKFILE_FAIL_IMMEDIATELY else 0
              else if has_flag flags LOCK.NB then msvcrt.LK_NBRLCK else msvcrt.LK_RLCK)
             0 (-0x10000) (overlapped self)) = Raises e ->
      (forall funcname strerror,
          e = pywin_error win32.ERROR_LOCK_VIOLATION funcname strerror ->
          r = Err (LockException LOCK_FAILED strerror handle)) /\
      ((forall funcname strerror,
           e <> pywin_error win32.ERROR_LOCK_VIOLATION funcname strerror) ->
       r = Err e)).
Proof.
  intros Hsh r w'. subst r w'. unfold lock. rewrite Hsh. split; [|split].
  - apply (preserves_lock_shared _ (fun c => negb (is_seek c))
             same_cursors_refl same_cursors_trans); try reflexivity.
    intros c Hc. apply same_cursors_call.
    destruct (is_seek c); [discriminate | reflexivity].
  - apply (preserves_lock_shared _ (fun c => negb (is_seek c))
             (only_calls_refl _) (only_calls_trans _) (only_calls_call _));
      reflexivity.
  - intros fd hfile e Hfd Hh He. unfold_ops.
    rewrite Hfd. cbn [history]. rewrite Hh. cbn [history]. rewrite He.
    split.
    + intros f s ->. reflexivity.
    + intros Hne. destruct e as [| code f s | |]; try reflexivity.
      destruct (Z.eqb_spec code win32.ERROR_LOCK_VIOLATION) as [-> | _];
        [|reflexivity].
      exfalso. exact (Hne f s eq_refl).
Qed.

(** On a file whose sentinel region another holder has locked. *)
Lemma lock_shared_branch_errors_witness :
  (lock py3 (FileLock_init py3) log_txt (Z.lor LOCK.SH LOCK.NB) env_contended (world_at 7)).1
  = Err (LockException LOCK_FAILED "lock violation" log_txt)
  /\ same_cursors (world_at 7)
       (lock py3 (FileLock_init py3) log_txt (Z.lor LOCK.SH LOCK.NB) env_contended (world_at 7)).2.
Proof.
  destruct (lock_shared_branch_errors env_contended py3 (FileLock_init py3) log_txt
              (Z.lor LOCK.SH LOCK.NB) (world_at 7) eq_refl) as (Hc & _ & He).
  split; [|exact Hc].
  destruct (He 3 1003 _ eq_refl eq_refl eq_refl) as [Hv _].
  exact (Hv _ _ eq_refl).
Defined.

(** ** [LOCK.UN] *)

Lemma lock_never_releases
    (env : Env) (major : Z) (self : FileLock) (handle : IO) (flags : Z) (w : World) :
  only_calls (fun c => negb (is_unlock_request c)) w
    (lock major self handle flags env w).2.
Proof.
  unfold lock. destruct (has_flag flags LOCK.SH).
  - apply (preserves_lock_shared _ (fun c => negb (is_unlock_request c))
             (only_calls_refl _) (only_calls_trans _) (only_calls_call _));
      reflexivity.
  - apply (preserves_lock_exclusive _ (fun c => negb (is_unlock_request c))
             (only_calls_refl _) (only_calls_trans _) (only_calls_call _));
      try reflexivity.
    intros fd nbytes pos. destruct (has_flag flags LOCK.NB); reflexivity.
Qed.

(** On a handle whose own calls return, [lock(handle, LOCK.UN)] asks
    [msvcrt.locking] for a lock with the blocking [LK_LOCK], and returns
    normally exactly when the request is granted. *)
Lemma lock_UN_asks_for_the_lock
    (env : Env) (major : Z) (self : FileLock) (handle : IO) (w : World) (fd : Z) :
  (forall hist, returned (env hist (OpTell handle)) = true) ->
  (forall hist pos, returned (env hist (OpSeek handle pos)) = true) ->
  (forall hist, env hist (OpFileno handle) = Ret fd) ->
  exists pos r evs,
    issued w (lock major self handle LOCK.UN env w).2 evs /\
    In (OpLocking fd msvcrt.LK_LOCK (lock_length self) pos, r) evs /\
    ((lock major self handle LOCK.UN env w).1 = Ok tt <-> returned r = true).
Proof.
  intros Ht Hs Hf.
  change (lock major self handle LOCK.UN) with (lock_exclusive self handle 0).
  unfold lock_exclusive. change (has_flag 0 LOCK.NB) with false. cbv iota.
  open_all. handle_step env handle Ht Hs Hf.
  destruct (truthy (cursor w handle)); repeat handle_step env handle Ht Hs Hf;
    match goal with |- context [answer env ?h (OpLocking ?a ?b ?c ?d)] =>
      destruct (env h (OpLocking a b c d)) as [? | [s | | |]] end;
    repeat handle_step env handle Ht Hs Hf;
    eexists _, _; give_issued;
    (split; [simpl; eauto 10 | split; intros H; try reflexivity; discriminate H]).
Qed.

(** On such a handle [unlock] asks [msvcrt.locking] for the release, with
    [LK_UNLCK], and returns normally when the release is granted. *)
Lemma unlock_asks_for_the_release
    (env : Env) (self : FileLock) (handle : IO) (w : World) (fd : Z) :
  (forall hist, returned (env hist (OpTell handle)) = true) ->
  (forall hist pos, returned (env hist (OpSeek handle pos)) = true) ->
  (forall hist, env hist (OpFileno handle) = Ret fd) ->
  exists pos r evs,
    issued w (unlock self handle env w).2 evs /\
    In (OpLocking fd msvcrt.LK_UNLCK (lock_length self) pos, r) evs /\
    (returned r = true -> (unlock self handle env w).1 = Ok tt).
Proof.
  intros Ht Hs Hf. open_all. handle_step env handle Ht Hs Hf.
  destruct (truthy (cursor w handle)); repeat handle_step env handle Ht Hs Hf;
    match goal with |- context [answer env ?h (OpLocking ?a ?b ?c ?d)] =>
      destruct (env h (OpLocking a b c d)) as [? | ?] eqn:? end;
    repeat first [handle_step env handle Ht Hs Hf | case_step env];
    eexists _, _; give_issued;
    (split; [simpl; eauto 12 | intros H; try reflexivity; discriminate H]).
Qed.

(** C10: [LOCK.UN] is 0, so [flags & LOCK.UN] is 0 for every [flags];
    [lock(handle, LOCK.UN)] is [lock(handle, 0)], the exclusive branch with the
    blocking primitive: on a handle whose own calls return it asks
    [msvcrt.locking] for a lock with [LK_LOCK] and returns normally exactly
    when that request is granted.  No call of [lock], whatever the flags, asks
    for a release.  [unlock] is the operation that does: it takes no lock and,
    on such a handle, asks [msvcrt.locking] for the release with [LK_UNLCK]. *)
Theorem lock_UN_does_not_unlock
    (env : Env) (major : Z) (self : FileLock) (handle : IO) (w : World) :
  LOCK.UN = 0 /\
  (forall flags, Z.land flags LOCK.UN = 0) /\
  lock major self handle LOCK.UN = lock major self handle 0 /\
  lock major self handle LOCK.UN = lock_exclusive self handle 0 /\
  only_calls blocking_exclusive_call w (lock major self handle LOCK.UN env w).2 /\
  (forall flags,
      only_calls (fun c => negb (is_unlock_request c)) w
        (lock major self handle flags env w).2) /\
  only_calls releasing_call w (unlock self handle env w).2 /\
  (forall fd,
      (forall hist, returned (env hist (OpTell handle)) = true) ->
      (forall hist pos, returned (env hist (OpSeek handle pos)) = true) ->
      (forall hist, env hist (OpFileno handle) = Ret fd) ->
      (exists pos r evs,
          issued w (lock major self handle LOCK.UN env w).2 evs /\
          In (OpLocking fd msvcrt.LK_LOCK (lock_length self) pos, r) evs /\
          ((lock major self handle LOCK.UN env w).1 = Ok tt <-> returned r = true)) /\
      (exists pos r evs,
          issued w (unlock self handle env w).2 evs /\
          In (OpLocking fd msvcrt.LK_UNLCK (lock_length self) pos, r) evs /\
          (returned r = true -> (unlock self handle env w).1 = Ok tt))).
Proof.
  split; [reflexivity|]. split; [intro flags; apply Z.land_0_r|].
  split; [reflexivity|]. split; [reflexivity|]. split; [|split; [|split]].
  - change (lock major self handle LOCK.UN) with (lock_exclusive self handle 0).
    apply (preserves_lock_exclusive _ blocking_exclusive_call
             (only_calls_refl _) (only_calls_trans _) (only_calls_call _));
      reflexivity.
  - intro flags. apply lock_never_releases.
  - apply (preserves_unlock _ releasing_call
             (only_calls_refl _) (only_calls_trans _) (only_calls_call _));
      reflexivity.
  - intros fd Ht Hs Hf. split.
    + apply lock_UN_asks_for_the_lock; assumption.
    + apply unlock_asks_for_the_release; assumption.
Qed.

(** On [log.txt] with the cursor at 7 and every call returning:
    [lock(handle, LOCK.UN)] takes the lock with [LK_LOCK] and returns; the
    release is the [LK_UNLCK] request of [unlock]. *)
Lemma lock_UN_does_not_unlock_witness :
  let self := FileLock_init py3 in
  (exists pos r evs,
      issued (world_at 7) (lock py3 self log_txt LOCK.UN env_ok (world_at 7)).2 evs /\
      In (OpLocking 3 msvcrt.LK_LOCK (lock_length self) pos, r) evs /\
      ((lock py3 self log_txt LOCK.UN env_ok (world_at 7)).1 = Ok tt <-> returned r = true)) /\
  (exists pos r evs,
      issued (world_at 7) (unlock self log_txt env_ok (world_at 7)).2 evs /\
      In (OpLocking 3 msvcrt.LK_UNLCK (lock_length self) pos, r) evs /\
      (returned r = true -> (unlock self log_txt env_ok (world_at 7)).1 = Ok tt)).
Proof.
  intro self.
  exact (proj2 (proj2 (proj2 (proj2 (proj2 (proj2 (proj2
           (lock_UN_does_not_unlock env_ok py3 self log_txt (world_at 7)))))))) 3
           (fun _ => eq_refl) (fun _ _ => eq_refl) (fun _ => eq_refl)).
Defined.

(** ** The exclusive branch *)

Lemma truthy_false (n : Z) : truthy n = false -> n = 0.
Proof. unfold truthy. rewrite negb_false_iff. apply Z.eqb_eq. Qed.

Lemma truthy_true (n : Z) : truthy n = true -> n <> 0.
Proof. unfold truthy. rewrite negb_true_iff. apply Z.eqb_neq. Qed.

Lemma set_cursor_same (handle : IO) (pos : Z) (cur : IO -> Z) :
  set_cursor handle pos cur handle = pos.
Proof. unfold set_cursor. destruct (decide (handle = handle)); congruence. Qed.

(** X21: without the [SH] bit, on Python 3, on a handle whose [tell],
    [seek(0)] and [fileno] return, the calls of [lock] are, in this order:
    [tell], giving the position [P] of the file object; [seek(0)] when [P] is
    not 0; [fileno]; [msvcrt.locking] for [2^31 - 1] bytes from wherever the
    descriptor is at that moment, with [LK_NBLCK] when [NB] is set and
    [LK_LOCK] otherwise; and [seek(P)] when [P] is not 0. *)
Theorem lock_exclusive_branch_calls
    (env : Env) (major : Z) (handle : IO) (flags : Z) (w : World) (t s fd : Z) :
  major <> 2 ->
  has_flag flags LOCK.SH = false ->
  let P := cursor w handle in
  let h1 := (OpTell handle, Ret P) :: history w in
  let h2 := if truthy P then (OpSeek handle 0, Ret s) :: h1 else h1 in
  let h3 := (OpFileno handle, Ret fd) :: h2 in
  env (history w) (OpTell handle) = Ret t ->
  (P <> 0 -> env h1 (OpSeek handle 0) = Ret s) ->
  env h2 (OpFileno handle) = Ret fd ->
  lock_length (FileLock_init major) = 2 ^ 31 - 1 /\
  exists r later,
    history (lock major (FileLock_init major) handle flags env w).2
    = later ++
      (OpLocking fd (if has_flag flags LOCK.NB then msvcrt.LK_NBLCK else msvcrt.LK_LOCK)
         (2 ^ 31 - 1) (descriptor_offset env h3 fd), r) :: h3 /\
    (P = 0 -> later = []) /\
    (P <> 0 -> exists r', later = [(OpSeek handle P, r')]).
Proof.
  intros Hmajor Hsh P h1 h2 h3 Ht Hs Hfd.
  assert (Hlen : lock_length (FileLock_init major) = 2 ^ 31 - 1).
  { unfold FileLock_init. cbn [lock_length].
    destruct (Z.eqb_spec major 2); [contradiction | reflexivity]. }
  split; [exact Hlen|].
  unfold lock. rewrite Hsh. unfold lock_exclusive. rewrite Hlen.
  unfold wrap_IOError, try_except, try_finally, seek, tell, fileno, locking, call,
    reply_of, raise, mbind, M_bind, mret, M_ret.
  rewrite Ht. cbn [history cursor effect]. fold P. subst h3 h2 h1.
  destruct (truthy P) eqn:HP.
  - apply truthy_true in HP. cbn [history cursor effect].
    rewrite (Hs HP). cbn [history cursor effect].
    rewrite Hfd. cbn [history cursor effect].
    match goal with |- context [answer env ?h (OpLocking ?a ?b ?c ?d)] =>
      destruct (env h (OpLocking a b c d)) as [v | e] end;
      cbn [history cursor effect].
    + match goal with |- context [answer env ?h (OpSeek ?a ?b)] =>
        destruct (env h (OpSeek a b)) as [v' | e'] end;
        try destruct e'; cbn [history cursor effect];
        (eexists _, [_]; split; [reflexivity | split; [contradiction | eauto]]).
    + destruct e; cbn [history cursor effect];
        match goal with |- context [answer env ?h (OpSeek ?a ?b)] =>
          destruct (env h (OpSeek a b)) as [v' | e'] end;
        try destruct e'; cbn [history cursor effect];
        (eexists _, [_]; split; [reflexivity | split; [contradiction | eauto]]).
  - apply truthy_false in HP. cbn [history cursor effect].
    rewrite Hfd. cbn [history cursor effect].
    match goal with |- context [answer env ?h (OpLocking ?a ?b ?c ?d)] =>
      destruct (env h (OpLocking a b c d)) as [v | e] end;
      try destruct e; cbn [history cursor effect];
      (eexists _, []; split; [reflexivity | split; [reflexivity | contradiction]]).
Qed.

(** On [log.txt] with [EX | NB] and the cursor at 7; the file object has no
    buffer, so the descriptor is at 0 after the seek. *)
Lemma lock_exclusive_branch_calls_witness :
  exists r later,
    history (lock py3 (FileLock_init py3) log_txt (Z.lor LOCK.EX LOCK.NB) env_ok (world_at 7)).2
    = later ++
      (OpLocking 3 msvcrt.LK_NBLCK (2 ^ 31 - 1) 0, r) :: (OpFileno log_txt, Ret 3)
      :: [(OpSeek log_txt 0, Ret 0); (OpTell log_txt, Ret 7)] /\
    (7 = 0 -> later = []) /\
    (7 <> 0 -> exists r', later = [(OpSeek log_txt 7, r')]).
Proof.
  exact (proj2 (lock_exclusive_branch_calls env_ok py3 log_txt (Z.lor LOCK.EX LOCK.NB)
                  (world_at 7) 0 0 3 ltac:(discriminate) eq_refl eq_refl
                  (fun _ => eq_refl) eq_refl)).
Defined.


(** ** The cursor *)

Lemma restore_cursor (handle : IO) (cur : IO -> Z) (h : IO) :
  set_cursor handle (cur handle) (set_cursor handle 0 cur) h = cur h.
Proof.
  unfold set_cursor. destruct (decide (h = handle)) as [-> | _]; reflexivity.
Qed.

Lemma lock_exclusive_restores
    (env : Env) (self : FileLock) (handle : IO) (flags : Z) (w : World) :
  (forall hist, returned (env hist (OpSeek handle (cursor w handle))) = true) ->
  same_cursors w (lock_exclusive self handle flags env w).2.
Proof.
  intros Hrestore h.
  unfold lock_exclusive, wrap_IOError, try_except, try_finally, seek, tell, fileno,
    locking, call, reply_of, raise, mbind, M_bind, mret, M_ret.
  repeat case_step env; cbn [history cursor effect fst snd];
    try reflexivity; try restore_failed; apply restore_cursor.
Qed.

Lemma unlock_restores (env : Env) (self : FileLock) (handle : IO) (w : World) :
  (forall hist, returned (env hist (OpSeek handle (cursor w handle))) = true) ->
  same_cursors w (unlock self handle env w).2.
Proof.
  intros Hrestore h.
  unfold unlock, unlock_fallback, wrap_IOError, try_except, try_finally, seek, tell,
    fileno, locking, _get_osfhandle, UnlockFileEx, call, reply_of, raise, mbind,
    M_bind, mret, M_ret.
  repeat case_step env; cbn [history cursor effect fst snd];
    try reflexivity; try restore_failed; apply restore_cursor.
Qed.

(** C3 (as amended): whenever the seek back to the saved position does not
    itself raise, [lock] and [unlock] leave every cursor where it was, however
    they end: normally, with [LockException], or with an exception they let
    through. *)
Theorem cursor_restored_when_seek_back_returns
    (env : Env) (major : Z) (self : FileLock) (handle : IO) (flags : Z) (w : World) :
  (forall hist, returned (env hist (OpSeek handle (cursor w handle))) = true) ->
  same_cursors w (lock major self handle flags env w).2 /\
  same_cursors w (unlock self handle env w).2.
Proof.
  intros Hrestore. split.
  - unfold lock. destruct (has_flag flags LOCK.SH).
    + apply (preserves_lock_shared _ (fun c => negb (is_seek c))
               same_cursors_refl same_cursors_trans); try reflexivity.
      intros c Hc. apply same_cursors_call.
      destruct (is_seek c); [discriminate | reflexivity].
    + apply lock_exclusive_restores, Hrestore.
  - apply unlock_restores, Hrestore.
Qed.

(** On a file that was never locked: [lock] fails, the cursor is back at 7. *)
Lemma cursor_restored_when_seek_back_returns_witness :
  (lock py3 (FileLock_init py3) log_txt LOCK.EX env_unlocked (world_at 7)).1
  = Err (LockException LOCK_FAILED "Permission denied" log_txt) /\
  same_cursors (world_at 7)
    (lock py3 (FileLock_init py3) log_txt LOCK.EX env_unlocked (world_at 7)).2 /\
  same_cursors (world_at 7) (unlock (FileLock_init py3) log_txt env_unlocked (world_at 7)).2.
Proof.
  split; [reflexivity|].
  exact (cursor_restored_when_seek_back_returns env_unlocked py3 (FileLock_init py3)
           log_txt LOCK.EX (world_at 7) (fun _ => eq_refl)).
Defined.

(** C3 (as stated) fails on the exit path where the seek back raises: the
    lock is taken, [handle.seek(5)] raises [IOError], [lock] raises
    [LockException], and the cursor that was at 5 is left at 0; [unlock] does
    the same. *)
Lemma cursor_not_restored_when_seek_back_raises :
  let w := world_at 5 in
  let self := FileLock_init py3 in
  (lock py3 self log_txt LOCK.EX env_restore_fails w).1
  = Err (LockException LOCK_FAILED "Invalid argument" log_txt) /\
  cursor w log_txt = 5 /\
  cursor (lock py3 self log_txt LOCK.EX env_restore_fails w).2 log_txt = 0 /\
  cursor (lock py3 self log_txt LOCK.EX env_restore_fails w).2 log_txt <> cursor w log_txt /\
  cursor (unlock self log_txt env_restore_fails w).2 log_txt <> cursor w log_txt.
Proof. vm_compute. repeat split; discriminate. Qed.

(** ** [unlock] and its fallback *)

Section Unlock.

Variable env : Env.
Variable self : FileLock.
Variable handle : IO.
Variables fd hfile : Z.

Hypothesis tell_returns : forall hist, returned (env hist (OpTell handle)) = true.
Hypothesis seek_returns : forall hist pos, returned (env hist (OpSeek handle pos)) = true.
Hypothesis fileno_returns : forall hist, env hist (OpFileno handle) = Ret fd.
Hypothesis osfhandle_returns : forall hist, env hist (OpGetOsfhandle fd) = Ret hfile.






End Unlock.



(** ** Singletons *)

(** What the decorator and the metaclass share: a slot per class that, once
    filled, is returned by every call and is never overwritten, and at most
    one construction, made only to fill an empty slot. *)
Section SingletonDiscipline.

Variable callee : Class -> list Z -> Runtime -> option Obj * Runtime.
Variable slot : Runtime -> Class -> option Obj.

Hypothesis slot_hit : forall rt cls args o,
  slot rt cls = Some o -> callee cls args rt = (Some o, rt).

Hypothesis slot_fill : forall rt cls args,
  slot rt cls = None ->
  constructed (callee cls args rt).2 = constructed rt \/
  exists o, obj_class o = cls /\
            constructed (callee cls args rt).2 = o :: constructed rt /\
            slot (callee cls args rt).2 cls = Some o /\
            forall c, c <> cls -> slot (callee cls args rt).2 c = slot rt c.

Hypothesis slot_kept : forall rt cls args c,
  constructed (callee cls args rt).2 = constructed rt ->
  slot (callee cls args rt).2 c = slot rt c.

Lemma slot_stable_step (rt : Runtime) (cls c : Class) (args : list Z) (o : Obj) :
  slot rt c = Some o -> slot (callee cls args rt).2 c = Some o.
Proof.
  intros Hc. destruct (slot rt cls) as [o' |] eqn:Hcls.
  - rewrite (slot_hit _ _ args _ Hcls). exact Hc.
  - destruct (slot_fill rt cls args Hcls) as [Hsame | (o' & _ & _ & _ & Hother)].
    + rewrite slot_kept by exact Hsame. exact Hc.
    + rewrite Hother; [exact Hc | congruence].
Qed.

Lemma slot_stable (calls : list (Class * list Z)) (rt : Runtime) (c : Class) (o : Obj) :
  slot rt c = Some o -> slot (call_all callee calls rt).2 c = Some o.
Proof.
  revert rt. induction calls as [| [cls args] rest IH]; intros rt Hc; [exact Hc|].
  cbn [call_all].
  pose proof (slot_stable_step rt cls c args o Hc) as Hstep.
  destruct (callee cls args rt) as [r rt1]. cbn [snd] in Hstep.
  specialize (IH rt1 Hstep).
  destruct (call_all callee rest rt1) as [rs rt2]. exact IH.
Qed.

(** Once the slot of a class is filled, every call for that class in any
    later sequence of calls returns its content. *)
Lemma filled_slot_returned
    (calls : list (Class * list Z)) (rt : Runtime) (c : Class) (o : Obj) :
  slot rt c = Some o ->
  forall i args, calls !! i = Some (c, args) ->
                 (call_all callee calls rt).1 !! i = Some (Some o).
Proof.
  revert rt. induction calls as [| [cls a] rest IH]; intros rt Hc i args Hi.
  - destruct i; discriminate Hi.
  - cbn [call_all].
    pose proof (slot_stable_step rt cls c a o Hc) as Hstep.
    destruct i as [| i].
    + injection Hi as -> ->. rewrite (slot_hit _ _ args _ Hc).
      destruct (call_all callee rest rt) as [rs rt2]. reflexivity.
    + destruct (callee cls a rt) as [r rt1]. cbn [snd] in Hstep.
      specialize (IH rt1 Hstep i args Hi).
      destruct (call_all callee rest rt1) as [rs rt2]. exact IH.
Qed.

Lemma one_per_class_step (rt : Runtime) (cls : Class) (args : list Z) :
  one_per_class slot rt -> one_per_class slot (callee cls args rt).2.
Proof.
  intros [Hnd Hin]. destruct (slot rt cls) as [o' |] eqn:Hcls.
  - rewrite (slot_hit _ _ args _ Hcls). split; assumption.
  - destruct (slot_fill rt cls args Hcls) as [Hsame | (o & Ho & Hcons & Hfilled & Hother)].
    + split; [rewrite Hsame; exact Hnd|].
      intros o Ho. rewrite Hsame in Ho. rewrite slot_kept by exact Hsame. auto.
    + split.
      * rewrite Hcons, fmap_cons. apply NoDup_cons. split; [|exact Hnd].
        intros Hmem. apply list_elem_of_fmap in Hmem as (o2 & Heq & Ho2).
        specialize (Hin o2 Ho2). rewrite <- Heq, Ho, Hcls in Hin.
        destruct Hin as [? Hin]. discriminate Hin.
      * intros o2 Ho2. rewrite Hcons in Ho2. apply elem_of_cons in Ho2 as [-> | Ho2].
        -- rewrite Ho, Hfilled. eauto.
        -- destruct (decide (obj_class o2 = cls)) as [Heq | Hne].
           ++ rewrite Heq, Hfilled. eauto.
           ++ rewrite Hother by exact Hne. auto.
Qed.

Lemma one_per_class_all (calls : list (Class * list Z)) (rt : Runtime) :
  one_per_class slot rt -> one_per_class slot (call_all callee calls rt).2.
Proof.
  revert rt. induction calls as [| [cls args] rest IH]; intros rt Hrt; [exact Hrt|].
  cbn [call_all].
  pose proof (one_per_class_step rt cls args Hrt) as Hstep.
  destruct (callee cls args rt) as [r rt1]. cbn [snd] in Hstep.
  specialize (IH rt1 Hstep).
  destruct (call_all callee rest rt1) as [rs rt2]. exact IH.
Qed.

End SingletonDiscipline.

(** *** The [singleton] decorator *)

Lemma cons_neq_self {A : Type} (x : A) (l : list A) : x :: l <> l.
Proof. intros H. apply (f_equal length) in H. simpl in H. lia. Qed.

Lemma singleton_later (rt : Runtime) (cls : Class) (args : list Z) (o : Obj) :
  INSTANCES rt !! cls = Some o -> singleton cls args rt = (Some o, rt).
Proof. intros H. unfold singleton. rewrite H. rewrite H. reflexivity. Qed.

Lemma singleton_first (rt : Runtime) (cls : Class) (args : list Z) :
  INSTANCES rt !! cls = None ->
  singleton cls args rt
  = (Some (mkObj (next_id rt) cls args),
     store_INSTANCES cls (mkObj (next_id rt) cls args) (construct cls args rt).2).
Proof.
  intros H. unfold singleton. rewrite H. cbn [construct snd].
  unfold store_INSTANCES at 1. cbn [INSTANCES]. rewrite lookup_insert_eq. reflexivity.
Qed.

Lemma singleton_fill (rt : Runtime) (cls : Class) (args : list Z) :
  INSTANCES rt !! cls = None ->
  constructed (singleton cls args rt).2 = constructed rt \/
  exists o, obj_class o = cls /\
            constructed (singleton cls args rt).2 = o :: constructed rt /\
            INSTANCES (singleton cls args rt).2 !! cls = Some o /\
            forall c, c <> cls ->
                      INSTANCES (singleton cls args rt).2 !! c = INSTANCES rt !! c.
Proof.
  intros H. right. rewrite (singleton_first _ _ _ H). cbn.
  exists (mkObj (next_id rt) cls args).
  split; [reflexivity|]. split; [reflexivity|]. split.
  - apply lookup_insert_eq.
  - intros c Hc. apply lookup_insert_ne. congruence.
Qed.

Lemma singleton_kept (rt : Runtime) (cls : Class) (args : list Z) (c : Class) :
  constructed (singleton cls args rt).2 = constructed rt ->
  INSTANCES (singleton cls args rt).2 !! c = INSTANCES rt !! c.
Proof.
  destruct (INSTANCES rt !! cls) as [o |] eqn:H.
  - rewrite (singleton_later _ _ _ _ H). reflexivity.
  - rewrite (singleton_first _ _ _ H). cbn. intros Hc.
    exfalso. exact (cons_neq_self _ _ Hc).
Qed.

(** A call of the wrapper returns what the table then holds for the class. *)
Lemma singleton_returns_entry (rt : Runtime) (cls : Class) (args : list Z) :
  exists o, (singleton cls args rt).1 = Some o /\
            INSTANCES (singleton cls args rt).2 !! cls = Some o.
Proof.
  destruct (INSTANCES rt !! cls) as [o |] eqn:H.
  - rewrite (singleton_later _ _ _ _ H). eauto.
  - rewrite (singleton_first _ _ _ H). cbn. rewrite lookup_insert_eq. eauto.
Qed.

Lemma singleton_results_final (calls : list (Class * list Z)) (rt : Runtime) :
  forall i cls args,
    calls !! i = Some (cls, args) ->
    exists o, (call_all singleton calls rt).1 !! i = Some (Some o) /\
              INSTANCES (call_all singleton calls rt).2 !! cls = Some o.
Proof.
  revert rt. induction calls as [| [c a] rest IH]; intros rt i cls args Hi.
  - destruct i; discriminate Hi.
  - cbn [call_all]. destruct i as [| i].
    + injection Hi as -> ->.
      destruct (singleton_returns_entry rt cls args) as (o & Hr & Hentry).
      pose proof (slot_stable singleton (fun r k => INSTANCES r !! k)
                    singleton_later singleton_fill singleton_kept
                    rest _ cls o Hentry) as Hfinal.
      destruct (singleton cls args rt) as [r rt1]. cbn [fst snd] in *.
      destruct (call_all singleton rest rt1) as [rs rt2]. cbn [fst snd] in *.
      exists o. subst r. split; [reflexivity | exact Hfinal].
    + destruct (singleton c a rt) as [r rt1].
      specialize (IH rt1 i cls args Hi).
      destruct (call_all singleton rest rt1) as [rs rt2]. exact IH.
Qed.

(** *** The [MetaSingleton] metaclass *)

Section MetaSingletonFacts.

Variable mro : Class -> list Class.
Hypothesis mro_self : forall c, head (mro c) = Some c.

Lemma getattr_own (rt : Runtime) (cls : Class) (o : Obj) :
  _instance rt !! cls = Some o -> getattr_instance mro cls rt = Some o.
Proof.
  intros H. unfold getattr_instance. pose proof (mro_self cls) as Hm.
  destruct (mro cls) as [| c rest]; [discriminate Hm|].
  injection Hm as ->. cbn [lookup_mro]. rewrite H. reflexivity.
Qed.

Lemma hasattr_false_own (rt : Runtime) (cls : Class) :
  hasattr_instance mro cls rt = false -> _instance rt !! cls = None.
Proof.
  unfold hasattr_instance. intros H.
  destruct (_instance rt !! cls) as [o |] eqn:Ho; [|reflexivity].
  rewrite (getattr_own _ _ _ Ho) in H. discriminate H.
Qed.

Lemma MetaSingleton_later (rt : Runtime) (cls : Class) (args : list Z) (o : Obj) :
  getattr_instance mro cls rt = Some o ->
  MetaSingleton_call mro cls args rt = (Some o, rt).
Proof.
  intros H. unfold MetaSingleton_call, hasattr_instance. rewrite H. rewrite H.
  reflexivity.
Qed.

Lemma MetaSingleton_first (rt : Runtime) (cls : Class) (args : list Z) :
  hasattr_instance mro cls rt = false ->
  MetaSingleton_call mro cls args rt
  = (Some (mkObj (next_id rt) cls args),
     setattr_instance cls (mkObj (next_id rt) cls args) (construct cls args rt).2).
Proof.
  intros H. unfold MetaSingleton_call. rewrite H. cbn [construct snd].
  rewrite (getattr_own _ cls (mkObj (next_id rt) cls args)); [reflexivity|].
  cbn. apply lookup_insert_eq.
Qed.

Lemma MetaSingleton_hit (rt : Runtime) (cls : Class) (args : list Z) (o : Obj) :
  _instance rt !! cls = Some o -> MetaSingleton_call mro cls args rt = (Some o, rt).
Proof. intros H. apply MetaSingleton_later, getattr_own, H. Qed.

Lemma MetaSingleton_fill (rt : Runtime) (cls : Class) (args : list Z) :
  _instance rt !! cls = None ->
  constructed (MetaSingleton_call mro cls args rt).2 = constructed rt \/
  exists o, obj_class o = cls /\
            constructed (MetaSingleton_call mro cls args rt).2 = o :: constructed rt /\
            _instance (MetaSingleton_call mro cls args rt).2 !! cls = Some o /\
            forall c, c <> cls ->
                      _instance (MetaSingleton_call mro cls args rt).2 !! c
                      = _instance rt !! c.
Proof.
  intros _. destruct (hasattr_instance mro cls rt) eqn:H.
  - left. unfold MetaSingleton_call. rewrite H. reflexivity.
  - right. rewrite (MetaSingleton_first _ _ _ H). cbn.
    exists (mkObj (next_id rt) cls args).
    split; [reflexivity|]. split; [reflexivity|]. split.
    + apply lookup_insert_eq.
    + intros c Hc. apply lookup_insert_ne. congruence.
Qed.

Lemma MetaSingleton_kept (rt : Runtime) (cls : Class) (args : list Z) (c : Class) :
  constructed (MetaSingleton_call mro cls args rt).2 = constructed rt ->
  _instance (MetaSingleton_call mro cls args rt).2 !! c = _instance rt !! c.
Proof.
  destruct (hasattr_instance mro cls rt) eqn:H.
  - unfold MetaSingleton_call. rewrite H. reflexivity.
  - rewrite (MetaSingleton_first _ _ _ H). cbn. intros Hc.
    exfalso. exact (cons_neq_self _ _ Hc).
Qed.

End MetaSingletonFacts.

Lemma process_start_one_per_class (slot : Runtime -> Class -> option Obj) :
  one_per_class slot process_start.
Proof.
  split; [constructor|]. intros o Ho. cbn in Ho. inversion Ho.
Qed.

(** C7 (as amended): for a class wrapped by [singleton], the first call
    constructs the instance and stores it, every later call returns the stored
    instance and constructs nothing, and all calls of any sequence return the
    same instance.  The same holds for a [MetaSingleton] class that inherits no
    [_instance] when it is first called; a call that finds an [_instance],
    inherited or its own, returns it and constructs nothing.  From the start
    of the process no class is ever constructed twice. *)
Theorem singleton_restriction (mro : Class -> list Class) :
  (forall c, head (mro c) = Some c) ->
  (forall rt cls args,
      INSTANCES rt !! cls = None ->
      singleton cls args rt
      = (Some (mkObj (next_id rt) cls args),
         store_INSTANCES cls (mkObj (next_id rt) cls args) (construct cls args rt).2)) /\
  (forall rt cls args o,
      INSTANCES rt !! cls = Some o -> singleton cls args rt = (Some o, rt)) /\
  (forall calls rt i j cls args args',
      calls !! i = Some (cls, args) ->
      calls !! j = Some (cls, args') ->
      exists o, (call_all singleton calls rt).1 !! i = Some (Some o) /\
                (call_all singleton calls rt).1 !! j = Some (Some o)) /\
  (forall calls,
      NoDup (obj_class <$> constructed (call_all singleton calls process_start).2)) /\
  (forall rt cls args,
      hasattr_instance mro cls rt = false ->
      MetaSingleton_call mro cls args rt
      = (Some (mkObj (next_id rt) cls args),
         setattr_instance cls (mkObj (next_id rt) cls args) (construct cls args rt).2)) /\
  (forall rt cls args o,
      getattr_instance mro cls rt = Some o ->
      MetaSingleton_call mro cls args rt = (Some o, rt)) /\
  (forall rt cls args calls i args',
      hasattr_instance mro cls rt = false ->
      ((cls, args) :: calls) !! i = Some (cls, args') ->
      (call_all (MetaSingleton_call mro) ((cls, args) :: calls) rt).1 !! i
      = Some (Some (mkObj (next_id rt) cls args))) /\
  (forall calls,
      NoDup (obj_class <$>
               constructed (call_all (MetaSingleton_call mro) calls process_start).2)).
Proof.
  intros Hmro. repeat apply conj.
  - intros rt cls args. apply singleton_first.
  - intros rt cls args o. apply singleton_later.
  - intros calls rt i j cls args args' Hi Hj.
    destruct (singleton_results_final calls rt i cls args Hi) as (o & Hri & Hfi).
    destruct (singleton_results_final calls rt j cls args' Hj) as (o' & Hrj & Hfj).
    exists o. split; [exact Hri|]. rewrite Hrj. congruence.
  - intros calls.
    apply (one_per_class_all singleton (fun r k => INSTANCES r !! k)
             singleton_later singleton_fill singleton_kept calls process_start).
    apply process_start_one_per_class.
  - intros rt cls args. apply MetaSingleton_first, Hmro.
  - intros rt cls args o. apply MetaSingleton_later.
  - intros rt cls args calls i args' Hno Hi.
    cbn [call_all]. rewrite (MetaSingleton_first mro Hmro _ _ _ Hno).
    destruct i as [| i].
    + destruct (call_all _ calls _) as [rs rt2]. reflexivity.
    + pose proof (filled_slot_returned (MetaSingleton_call mro)
                    (fun r k => _instance r !! k) (MetaSingleton_hit mro Hmro)
                    (MetaSingleton_fill mro Hmro) (MetaSingleton_kept mro Hmro)
                    calls
                    (setattr_instance cls (mkObj (next_id rt) cls args)
                       (construct cls args rt).2)
                    cls (mkObj (next_id rt) cls args)) as Hlater.
      specialize (Hlater ltac:(cbn; apply lookup_insert_eq) i args' Hi).
      destruct (call_all _ calls _) as [rs rt2]. exact Hlater.
  - intros calls.
    apply (one_per_class_all (MetaSingleton_call mro) (fun r k => _instance r !! k)
             (MetaSingleton_hit mro Hmro) (MetaSingleton_fill mro Hmro)
             (MetaSingleton_kept mro Hmro) calls process_start).
    apply process_start_one_per_class.
Qed.

Lemma mro_sample_self (c : Class) : head (mro_sample c) = Some c.
Proof.
  unfold mro_sample. destruct (String.eqb_spec c "Child") as [-> | _]; reflexivity.
Qed.

(** Two classes behind the decorator, and [Child] called before [Base]. *)
Lemma singleton_restriction_witness :
  (exists o,
      (call_all singleton
         [("FileLock", []); ("Cypher", [1]); ("FileLock", [2])]%string process_start).1 !! 0%nat
      = Some (Some o) /\
      (call_all singleton
         [("FileLock", []); ("Cypher", [1]); ("FileLock", [2])]%string process_start).1 !! 2%nat
      = Some (Some o)) /\
  (call_all (MetaSingleton_call mro_sample)
     [("Child", [7]); ("Base", []); ("Child", [8])]%string process_start).1 !! 2%nat
  = Some (Some (mkObj 0 "Child" [7])).
Proof.
  destruct (singleton_restriction mro_sample mro_sample_self)
    as (_ & _ & Hsame & _ & _ & _ & Hmeta & _).
  split.
  - exact (Hsame [("FileLock", []); ("Cypher", [1]); ("FileLock", [2])]%string
             process_start 0%nat 2%nat "FileLock"%string [] [2] eq_refl eq_refl).
  - exact (Hmeta process_start "Child"%string [7] [("Base", []); ("Child", [8])]%string
             2%nat [8] eq_refl eq_refl).
Defined.

(** C7 (as stated) fails for a [MetaSingleton] class with a base class that
    already has its instance: the first call of [Child] returns the instance
    of [Base], constructs nothing and stores nothing for [Child]. *)
Lemma MetaSingleton_first_call_of_subclass_constructs_nothing :
  let rt1 := (MetaSingleton_call mro_sample "Base" [] process_start).2 in
  constructed rt1 = [mkObj 0 "Base" []] /\
  _instance rt1 !! "Child"%string = None /\
  MetaSingleton_call mro_sample "Child" [1] rt1 = (Some (mkObj 0 "Base" []), rt1).
Proof. repeat split. Qed.

(** ** Threads *)

Lemma run_schedule_app (s1 s2 : list nat) (st : list Thread * Runtime) :
  run_schedule (s1 ++ s2) st = run_schedule s2 (run_schedule s1 st).
Proof. unfold run_schedule. apply fold_left_app. Qed.

Lemma step_pool_at (i : nat) (pool : list Thread) (rt : Runtime) (t : Thread) :
  pool !! i = Some t ->
  step_pool i (pool, rt) = (<[i := (step_thread t rt).1]> pool, (step_thread t rt).2).
Proof.
  intros H. unfold step_pool. cbn [fst snd]. rewrite H.
  destruct (step_thread t rt) as [t' rt']. reflexivity.
Qed.

Lemma step_pool_again (i : nat) (pool : list Thread) (rt : Runtime) (t0 t : Thread) :
  pool !! i = Some t0 ->
  step_pool i (<[i := t]> pool, rt)
  = (<[i := (step_thread t rt).1]> pool, (step_thread t rt).2).
Proof.
  intros H. rewrite (step_pool_at i _ rt t).
  - rewrite list_insert_insert_eq. reflexivity.
  - apply list_lookup_insert_eq. eapply lookup_lt_Some. exact H.
Qed.

(** A thread that runs its four steps without interruption does what one
    call of the wrapper does. *)
Lemma four_steps_are_one_call
    (i : nat) (pool : list Thread) (rt : Runtime) (cls : Class) (args : list Z) :
  pool !! i = Some (mkThread cls args AtCheck) ->
  run_schedule [i; i; i; i] (pool, rt)
  = (<[i := mkThread cls args (Finished (singleton cls args rt).1)]> pool,
     (singleton cls args rt).2).
Proof.
  intros H. unfold run_schedule. cbn [fold_left].
  rewrite (step_pool_at i pool rt _ H).
  unfold step_thread at 1 2. cbn [t_pc t_cls t_args].
  destruct (INSTANCES rt !! cls) as [o |] eqn:Hentry; cbn [fst snd].
  - rewrite (step_pool_again i pool rt _ _ H).
    unfold step_thread at 1 2. cbn [t_pc t_cls t_args fst snd].
    rewrite (step_pool_again i pool rt _ _ H).
    unfold step_thread at 1 2. cbn [t_pc t_cls t_args fst snd].
    rewrite (step_pool_again i pool rt _ _ H).
    unfold step_thread. cbn [t_pc t_cls t_args fst snd].
    rewrite (singleton_later _ _ _ _ Hentry), Hentry. reflexivity.
  - rewrite (step_pool_again i pool rt _ _ H).
    unfold step_thread at 1 2. cbn [t_pc t_cls t_args fst snd construct].
    rewrite (step_pool_again i pool _ _ _ H).
    unfold step_thread at 1 2. cbn [t_pc t_cls t_args fst snd].
    rewrite (step_pool_again i pool _ _ _ H).
    unfold step_thread. cbn [t_pc t_cls t_args fst snd].
    rewrite (singleton_first _ _ _ Hentry). cbn [fst snd construct].
    unfold store_INSTANCES at 1. cbn [INSTANCES]. rewrite lookup_insert_eq.
    reflexivity.
Qed.

Lemma serial_calls_agree (cls : Class) (order : list nat) :
  forall (pool : list Thread) (rt : Runtime),
    NoDup order ->
    (forall i, i ∈ order -> exists args, pool !! i = Some (mkThread cls args AtCheck)) ->
    let final := run_schedule (serial order) (pool, rt) in
    (forall i, i ∈ order ->
       exists args o, final.1 !! i = Some (mkThread cls args (Finished (Some o))) /\
                      INSTANCES final.2 !! cls = Some o) /\
    (forall i, i ∉ order -> final.1 !! i = pool !! i) /\
    (forall o, INSTANCES rt !! cls = Some o ->
               INSTANCES final.2 !! cls = Some o /\ constructed final.2 = constructed rt) /\
    (length (constructed final.2) <= S (length (constructed rt)))%nat.
Proof.
  induction order as [| i rest IH]; intros pool rt Hnd Hpool final; subst final.
  - cbn. repeat split; auto. intros i Hi. inversion Hi.
  - apply NoDup_cons in Hnd as [Hi Hnd].
    destruct (Hpool i ltac:(left)) as [args Hti].
    change (serial (i :: rest)) with ([i; i; i; i] ++ serial rest).
    rewrite run_schedule_app, (four_steps_are_one_call i pool rt cls args Hti).
    destruct (singleton_returns_entry rt cls args) as (o & Hr & Hentry).
    rewrite Hr.
    set (pool1 := <[i := mkThread cls args (Finished (Some o))]> pool).
    set (rt1 := (singleton cls args rt).2) in *.
    assert (Hpool1 : forall j, j ∈ rest ->
              exists a, pool1 !! j = Some (mkThread cls a AtCheck)).
    { intros j Hj. destruct (Hpool j ltac:(right; exact Hj)) as [a Ha].
      exists a. unfold pool1. rewrite list_lookup_insert_ne; [exact Ha|].
      intros ->. contradiction. }
    destruct (IH pool1 rt1 Hnd Hpool1) as (Hin & Hout & Hkeep & _).
    destruct (Hkeep o Hentry) as [Hfinal Hcons].
    repeat split.
    + intros j Hj. apply elem_of_cons in Hj as [-> | Hj].
      * exists args, o. split; [|exact Hfinal].
        rewrite (Hout i Hi). unfold pool1. apply list_lookup_insert_eq.
        eapply lookup_lt_Some. exact Hti.
      * exact (Hin j Hj).
    + intros j Hj. rewrite Hout.
      * unfold pool1. apply list_lookup_insert_ne. intros ->. apply Hj. left.
      * intros Hjr. apply Hj. right. exact Hjr.
    + rewrite Hfinal. f_equal.
      subst rt1. rewrite (singleton_later _ _ _ _ H) in Hentry. cbn in Hentry.
      congruence.
    + rewrite Hcons. subst rt1. rewrite (singleton_later _ _ _ _ H). reflexivity.
    + rewrite Hcons. subst rt1.
      destruct (INSTANCES rt !! cls) as [o' |] eqn:Hrt.
      * rewrite (singleton_later _ _ _ _ Hrt). cbn. lia.
      * rewrite (singleton_first _ _ _ Hrt). cbn. lia.
Qed.

(** C8 (as amended): the wrapper holds no lock; when the calls of the threads
    do not overlap (each thread runs its call to the end before the next one
    starts), at most one instance is created and every caller gets the same
    instance. *)
Theorem singleton_calls_one_after_another
    (cls : Class) (pool : list Thread) (rt : Runtime) (order : list nat) :
  NoDup order ->
  (forall i, i ∈ order -> exists args, pool !! i = Some (mkThread cls args AtCheck)) ->
  let final := run_schedule (serial order) (pool, rt) in
  (forall i j, i ∈ order -> j ∈ order ->
     exists o args args',
       final.1 !! i = Some (mkThread cls args (Finished (Some o))) /\
       final.1 !! j = Some (mkThread cls args' (Finished (Some o)))) /\
  (length (constructed final.2) <= S (length (constructed rt)))%nat.
Proof.
  intros Hnd Hpool final.
  destruct (serial_calls_agree cls order pool rt Hnd Hpool) as (Hin & _ & _ & Hlen).
  fold final in Hin, Hlen. split; [|exact Hlen].
  intros i j Hi Hj.
  destruct (Hin i Hi) as (a & o & Hti & Hoi).
  destruct (Hin j Hj) as (a' & o' & Htj & Hoj).
  exists o, a, a'. split; [exact Hti|].
  rewrite Htj. congruence.
Qed.

(** Thread 1 runs its call, then thread 0. *)
Lemma singleton_calls_one_after_another_witness :
  let final := run_schedule (serial [1; 0]%nat) (racing_pool, process_start) in
  (exists o args args',
      final.1 !! 0%nat = Some (mkThread "FileLock" args (Finished (Some o))) /\
      final.1 !! 1%nat = Some (mkThread "FileLock" args' (Finished (Some o)))) /\
  (length (constructed final.2) <= 1)%nat.
Proof.
  assert (Hnd : NoDup [1; 0]%nat) by compute_done.
  assert (Hpool : forall i, i ∈ [1; 0]%nat ->
            exists args, racing_pool !! i = Some (mkThread "FileLock" args AtCheck)).
  { intros i Hi. exists [].
    apply elem_of_cons in Hi as [-> | Hi]; [reflexivity|].
    apply elem_of_cons in Hi as [-> | Hi]; [reflexivity|]. inversion Hi. }
  destruct (singleton_calls_one_after_another "FileLock" racing_pool process_start
              [1; 0]%nat Hnd Hpool) as [Hsame Hlen].
  split; [|exact Hlen].
  exact (Hsame 0%nat 1%nat ltac:(compute_done) ltac:(compute_done)).
Defined.

(** C8 (as stated) fails: nothing guards the check, the construction and the
    store.  When the second thread checks before the first one stores, both
    construct, and the two callers get different instances. *)
Lemma singleton_race_creates_two_instances :
  let final := run_schedule [0; 1; 0; 0; 0; 1; 1; 1]%nat (racing_pool, process_start) in
  final.1 = [mkThread "FileLock" [] (Finished (Some (mkObj 0 "FileLock" [])));
             mkThread "FileLock" [] (Finished (Some (mkObj 1 "FileLock" [])))] /\
  constructed final.2 = [mkObj 1 "FileLock" []; mkObj 0 "FileLock" []].
Proof. split; reflexivity. Qed.

(** * Further properties *)

(** ** [_get_mode]: what [strip] removes and what it keeps *)

Lemma append_empty (s : string) : (EmptyString ++ s)%string = s.
Proof. reflexivity. Qed.

Lemma append_String (c : ascii) (s t : string) :
  (String c s ++ t)%string = String c (s ++ t)%string.
Proof. reflexivity. Qed.

Lemma lstrip_decorated (chars pre : string) (c : ascii) (post : string) :
  all_in chars pre = true ->
  in_chars c chars = false ->
  lstrip chars (pre ++ String c post)%string = String c post.
Proof.
  intros Hpre Hc. induction pre as [| d pre IH].
  - rewrite append_empty. cbn. rewrite Hc. reflexivity.
  - cbn in Hpre. apply andb_true_iff in Hpre as [Hd Hpre].
    rewrite append_String. cbn. rewrite Hd. apply IH, Hpre.
Qed.

Lemma rstrip_all_in (chars s : string) :
  all_in chars s = true -> rstrip chars s = EmptyString.
Proof.
  induction s as [| c s IH]; cbn; [reflexivity|].
  intros H. apply andb_true_iff in H as [Hc Hs].
  rewrite (IH Hs), Hc. reflexivity.
Qed.

Lemma in_rwax (c : ascii) :
  in_chars c "rwax" = true ->
  c = "r"%char \/ c = "w"%char \/ c = "a"%char \/ c = "x"%char.
Proof.
  cbn.
  destruct (Ascii.eqb_spec c "r"); [auto|].
  destruct (Ascii.eqb_spec c "w"); [auto|].
  destruct (Ascii.eqb_spec c "a"); [auto|].
  destruct (Ascii.eqb_spec c "x"); [auto|].
  discriminate.
Qed.

(** X1: a mode made of one of the letters r, w, a, x with any number of t, b
    and + before and after it resolves to that letter: [get_flags] returns
    [LOCK.SH] for r and [LOCK.EX] for w, a and x. *)
Theorem get_flags_of_decorated_mode (handle : IO) (pre : string) (c : ascii) (post : string) :
  io_mode handle = (pre ++ String c post)%string ->
  all_in "tb+" pre = true ->
  all_in "tb+" post = true ->
  in_chars c "rwax" = true ->
  _get_mode handle = String c EmptyString /\
  get_flags handle = Some (if Ascii.eqb c "r" then LOCK.SH else LOCK.EX).
Proof.
  intros Hmode Hpre Hpost Hc.
  assert (Hout : in_chars c "tb+" = false).
  { destruct (in_rwax c Hc) as [-> | [-> | [-> | ->]]]; reflexivity. }
  assert (Hm : _get_mode handle = String c EmptyString).
  { unfold _get_mode, strip. rewrite Hmode, (lstrip_decorated _ _ _ _ Hpre Hout).
    cbn [rstrip]. rewrite (rstrip_all_in _ _ Hpost), Hout. reflexivity. }
  split; [exact Hm|].
  unfold get_flags. rewrite Hm.
  destruct (in_rwax c Hc) as [-> | [-> | [-> | ->]]]; reflexivity.
Qed.

(** The mode ["+bw+t"]. *)
Lemma get_flags_of_decorated_mode_witness :
  _get_mode (mkIO "f" "+bw+t") = "w"%string /\
  get_flags (mkIO "f" "+bw+t") = Some LOCK.EX.
Proof.
  exact (get_flags_of_decorated_mode (mkIO "f" "+bw+t") "+b" "w" "+t"
           eq_refl eq_refl eq_refl eq_refl).
Defined.

Lemma lstrip_spec (chars s : string) :
  exists pre, s = (pre ++ lstrip chars s)%string /\
              all_in chars pre = true /\
              starts_in chars (lstrip chars s) = false.
Proof.
  induction s as [| c s (pre & Heq & Hpre & Hstart)]; cbn.
  - exists EmptyString. repeat split.
  - destruct (in_chars c chars) eqn:Hc.
    + exists (String c pre). rewrite append_String, <- Heq. cbn. rewrite Hc, Hpre.
      repeat split. exact Hstart.
    + exists EmptyString. rewrite append_empty. cbn. rewrite Hc. repeat split.
Qed.

Lemma rstrip_spec (chars s : string) :
  exists post, s = (rstrip chars s ++ post)%string /\
               all_in chars post = true /\
               ends_in chars (rstrip chars s) = false /\
               (starts_in chars s = false -> starts_in chars (rstrip chars s) = false).
Proof.
  induction s as [| c s (post & Heq & Hpost & Hend & _)].
  - exists EmptyString. repeat split.
  - cbn [rstrip]. destruct (rstrip chars s) as [| d kept] eqn:Hr.
    + rewrite append_empty in Heq. destruct (in_chars c chars) eqn:Hc.
      * exists (String c post). rewrite append_empty.
        split; [f_equal; exact Heq|]. split; [cbn; rewrite Hc; exact Hpost|].
        split; [reflexivity|]. cbn. rewrite Hc. intros H. discriminate H.
      * exists post. rewrite append_String, append_empty.
        split; [f_equal; exact Heq|]. split; [exact Hpost|].
        split; [cbn; exact Hc|]. intros _. cbn. exact Hc.
    + exists post. rewrite append_String.
      split; [f_equal; exact Heq|]. split; [exact Hpost|].
      split; [exact Hend|]. intros H. exact H.
Qed.

(** X2: the resolved mode is the handle's mode with a run of t, b and + cut
    from the front and another from the back, and nothing else: what is left
    neither begins nor ends with one of them, and the inside is untouched. *)
Theorem get_mode_cuts_both_ends (handle : IO) :
  exists pre post,
    io_mode handle = (pre ++ _get_mode handle ++ post)%string /\
    all_in "tb+" pre = true /\
    all_in "tb+" post = true /\
    starts_in "tb+" (_get_mode handle) = false /\
    ends_in "tb+" (_get_mode handle) = false.
Proof.
  unfold _get_mode, strip.
  destruct (lstrip_spec "tb+" (io_mode handle)) as (pre & Hl & Hpre & Hstart).
  destruct (rstrip_spec "tb+" (lstrip "tb+" (io_mode handle)))
    as (post & Hr & Hpost & Hend & Hkeep).
  exists pre, post. repeat split; auto.
  rewrite <- Hr. exact Hl.
Qed.

(** ** What [lock] and [unlock] let out, and when they return *)



(** X4: [lock] returns normally only when a lock primitive returned:
    [msvcrt.locking] with a locking mode, or [LockFileEx]. *)
Theorem lock_returns_only_with_the_lock
    (env : Env) (major : Z) (self : FileLock) (handle : IO) (flags : Z) (w : World) :
  (lock major self handle flags env w).1 = Ok tt ->
  exists evs,
    issued w (lock major self handle flags env w).2 evs /\
    some_returned is_lock_request evs = true.
Proof.
  open_all.
  repeat case_step env; cbn [history cursor effect fst snd];
    intros Hok; try discriminate Hok; give_issued; reflexivity.
Qed.

Lemma lock_returns_only_with_the_lock_witness :
  exists evs,
    issued (world_at 7)
      (lock py3 (FileLock_init py3) log_txt LOCK.SH env_ok (world_at 7)).2 evs /\
    some_returned is_lock_request evs = true.
Proof.
  exact (lock_returns_only_with_the_lock env_ok py3 (FileLock_init py3) log_txt
           LOCK.SH (world_at 7) eq_refl).
Defined.

(** X5: [unlock] returns normally only when [msvcrt.locking] or
    [UnlockFileEx] released the lock, or [UnlockFileEx] answered
    [ERROR_NOT_LOCKED]. *)
Theorem unlock_returns_only_when_released
    (env : Env) (self : FileLock) (handle : IO) (w : World) :
  (unlock self handle env w).1 = Ok tt ->
  exists evs,
    issued w (unlock self handle env w).2 evs /\
    (some_returned is_unlock_request evs
     || some_raised is_UnlockFileEx is_not_locked evs) = true.
Proof.
  open_all.
  repeat case_step env; cbn [history cursor effect fst snd];
    intros Hok; try discriminate Hok; give_issued;
    cbn; rewrite ?orb_true_r; try reflexivity;
    match goal with H : Z.eqb _ _ = true |- _ => rewrite H end;
    rewrite ?orb_true_r; reflexivity.
Qed.

Lemma unlock_returns_only_when_released_witness :
  exists evs,
    issued (world_at 7) (unlock (FileLock_init py3) log_txt env_unlocked (world_at 7)).2 evs /\
    (some_returned is_unlock_request evs
     || some_raised is_UnlockFileEx is_not_locked evs) = true.
Proof.
  exact (unlock_returns_only_when_released env_unlocked (FileLock_init py3) log_txt
           (world_at 7) eq_refl).
Defined.

(** X6: [unlock] calls [UnlockFileEx] only after the statement
    [locking(handle.fileno(), LOCK.UN, n)] raised an [IOError] with the
    message "Permission denied"; and one call of [unlock] asks each of the two
    primitives at most once and takes no lock. *)
Theorem unlock_asks_once_and_falls_back_only_when_refused
    (env : Env) (self : FileLock) (handle : IO) (w : World) :
  exists evs,
    issued w (unlock self handle env w).2 evs /\
    (count_calls is_release_by_locking evs <= 1)%nat /\
    (count_calls is_UnlockFileEx evs <= 1)%nat /\
    count_calls is_lock_request evs = 0%nat /\
    (count_calls is_UnlockFileEx evs = 0%nat \/
     some_raised in_release_statement is_permission_denied evs = true).
Proof.
  open_all.
  repeat case_step env; give_issued; cbn;
    repeat split; try lia; auto;
    right; rewrite ?orb_true_r;
    match goal with H : String.eqb _ _ = true |- _ => rewrite H end;
    rewrite ?orb_true_r; reflexivity.
Qed.

(** X7: one call of [lock] asks for the lock at most once: a refusal is never
    retried. *)
Theorem lock_asks_once
    (env : Env) (major : Z) (self : FileLock) (handle : IO) (flags : Z) (w : World) :
  exists evs,
    issued w (lock major self handle flags env w).2 evs /\
    (count_calls is_lock_request evs <= 1)%nat.
Proof.
  open_all.
  repeat case_step env; give_issued; cbn; lia.
Qed.

(** ** What the shared branch asks of Win32 *)

(** X8: in the shared branch [LockFileEx] gets the sentinel region (low
    length 0, high length -0x10000).  Under Python 2 its flags are
    [LOCKFILE_FAIL_IMMEDIATELY] with [NB] and 0 without.  Under Python 3 its
    flags are the [msvcrt] constants [LK_NBRLCK] = 4 and [LK_RLCK] = 3: read
    as Win32 flags, both [LOCKFILE_FAIL_IMMEDIATELY] and
    [LOCKFILE_EXCLUSIVE_LOCK] are set exactly when [NB] is not. *)
Theorem shared_branch_request
    (env : Env) (major : Z) (self : FileLock) (handle : IO) (flags : Z) (w : World) :
  has_flag flags LOCK.SH = true ->
  only_calls
    (if Z.eqb major 2
     then shared_request (has_flag flags LOCK.NB) false
     else shared_request (negb (has_flag flags LOCK.NB)) (negb (has_flag flags LOCK.NB)))
    w (lock major self handle flags env w).2.
Proof.
  intros Hsh. unfold only_calls, lock. rewrite Hsh. open_all.
  repeat case_step env; give_issued; repeat constructor.
Qed.

(** With [SH] alone under Python 3, the flags are 3: fail immediately and
    exclusive. *)
Lemma shared_branch_request_witness :
  only_calls (shared_request true true) (world_at 7)
    (lock py3 (FileLock_init py3) log_txt LOCK.SH env_ok (world_at 7)).2.
Proof.
  exact (shared_branch_request env_ok py3 (FileLock_init py3) log_txt LOCK.SH
           (world_at 7) eq_refl).
Defined.

(** ** Whose file is locked *)

(** X9: whatever the environment answers, every call that [lock] and [unlock]
    make is about the handle they are given: [tell], [seek] and [fileno] are
    called on that handle and on no other file object; the descriptor handed
    to [msvcrt.locking] and to [_get_osfhandle] is one that [handle.fileno()]
    returned before; the OS handle handed to [LockFileEx] and [UnlockFileEx]
    is one that [_get_osfhandle] returned before. *)
Theorem every_call_is_about_the_handle
    (env : Env) (major : Z) (self : FileLock) (handle : IO) (flags : Z) (w : World) :
  (exists evs,
      issued w (lock major self handle flags env w).2 evs /\
      about_handle handle evs = true) /\
  (exists evs,
      issued w (unlock self handle env w).2 evs /\
      about_handle handle evs = true).
Proof.
  assert (Hself : bool_decide (handle = handle) = true)
    by (apply bool_decide_eq_true; reflexivity).
  split; open_all;
    repeat case_step env; give_issued;
    cbn [about_handle fileno_gave osfhandle_gave existsb fst snd];
    rewrite ?Hself, ?Z.eqb_refl; cbn [andb orb]; rewrite ?orb_true_r;
    reflexivity.
Qed.

(** ** The outcome of the exclusive branch and of [unlock] *)

(** X10: on a handle whose own calls return, the exclusive branch of [lock]
    returns normally exactly when [msvcrt.locking] returns; an [IOError] of
    [msvcrt.locking] becomes [LockException] with the same message and the
    handle; any other exception of it reaches the caller unchanged. *)
Theorem lock_exclusive_outcome
    (env : Env) (major : Z) (self : FileLock) (handle : IO) (flags : Z) (w : World)
    (fd : Z) (primitive : Reply) :
  has_flag flags LOCK.SH = false ->
  (forall hist, returned (env hist (OpTell handle)) = true) ->
  (forall hist pos, returned (env hist (OpSeek handle pos)) = true) ->
  (forall hist, env hist (OpFileno handle) = Ret fd) ->
  (forall hist pos,
      env hist (OpLocking fd
                  (if has_flag flags LOCK.NB then msvcrt.LK_NBLCK else msvcrt.LK_LOCK)
                  (lock_length self) pos) = primitive) ->
  (lock major self handle flags env w).1
  = match primitive with
    | Ret _ => Ok tt
    | Raises (IOError strerror) => Err (LockException LOCK_FAILED strerror handle)
    | Raises e => Err e
    end.
Proof.
  intros Hsh Ht Hs Hf Hp. unfold lock. rewrite Hsh. open_all.
  handle_step env handle Ht Hs Hf.
  destruct (truthy (cursor w handle)); repeat handle_step env handle Ht Hs Hf;
    rewrite Hp; destruct primitive as [? | [s | | |]];
    repeat handle_step env handle Ht Hs Hf; reflexivity.
Qed.

(** An interrupt during [locking]: the cursor is put back and the interrupt
    goes on to the caller. *)
Lemma lock_exclusive_outcome_witness :
  (lock py3 (FileLock_init py3) log_txt LOCK.EX env_interrupted (world_at 7)).1
  = Err (OtherError "KeyboardInterrupt").
Proof.
  exact (lock_exclusive_outcome env_interrupted py3 (FileLock_init py3) log_txt LOCK.EX
           (world_at 7) 3 _ eq_refl (fun _ => eq_refl) (fun _ _ => eq_refl)
           (fun _ => eq_refl) (fun _ _ => eq_refl)).
Defined.

(** X11: on a handle whose own calls return, [unlock] returns normally when
    [msvcrt.locking] returns; an [IOError] of [msvcrt.locking] with a message
    other than "Permission denied" becomes [LockException] with that message
    and the handle, and an exception of [msvcrt.locking] that is no [IOError]
    reaches the caller unchanged; in these three cases [UnlockFileEx] is not
    called. *)
Theorem unlock_without_fallback
    (env : Env) (self : FileLock) (handle : IO) (w : World) (fd : Z) (primary : Reply) :
  (forall hist, returned (env hist (OpTell handle)) = true) ->
  (forall hist pos, returned (env hist (OpSeek handle pos)) = true) ->
  (forall hist, env hist (OpFileno handle) = Ret fd) ->
  (forall hist pos, env hist (OpLocking fd LOCK.UN (lock_length self) pos) = primary) ->
  is_permission_denied match primary with Raises e => e | Ret _ => OtherError "" end
  = false ->
  (unlock self handle env w).1
  = match primary with
    | Ret _ => Ok tt
    | Raises (IOError strerror) => Err (LockException LOCK_FAILED strerror handle)
    | Raises e => Err e
    end /\
  exists evs,
    issued w (unlock self handle env w).2 evs /\
    count_calls is_UnlockFileEx evs = 0%nat.
Proof.
  intros Ht Hs Hf Hp Hother. open_all.
  handle_step env handle Ht Hs Hf.
  destruct (truthy (cursor w handle)); repeat handle_step env handle Ht Hs Hf;
    rewrite Hp; destruct primary as [? | [s | | |]];
    repeat handle_step env handle Ht Hs Hf;
    try (cbn [is_permission_denied] in Hother; rewrite Hother);
    repeat handle_step env handle Ht Hs Hf;
    (split; [reflexivity | give_issued; reflexivity]).
Qed.

(** An interrupt during the release. *)
Lemma unlock_without_fallback_witness :
  (unlock (FileLock_init py3) log_txt env_interrupted (world_at 7)).1
  = Err (OtherError "KeyboardInterrupt") /\
  exists evs,
    issued (world_at 7) (unlock (FileLock_init py3) log_txt env_interrupted (world_at 7)).2 evs /\
    count_calls is_UnlockFileEx evs = 0%nat.
Proof.
  exact (unlock_without_fallback env_interrupted (FileLock_init py3) log_txt (world_at 7)
           3 _ (fun _ => eq_refl) (fun _ _ => eq_refl) (fun _ => eq_refl)
           (fun _ _ => eq_refl) eq_refl).
Defined.

(** ** [MetaSingleton] under single inheritance *)

Section LinearMro.

Variable mro : Class -> list Class.
Hypothesis mro_self : forall c, head (mro c) = Some c.

(** Single inheritance: the resolution order of a class continues with the
    resolution order of each class on it. *)
Hypothesis mro_linear : forall c pre d post,
  mro c = pre ++ d :: post -> mro d = d :: post.

Lemma lookup_mro_app (attrs : gmap string Obj) (l1 l2 : list Class) :
  lookup_mro attrs (l1 ++ l2)
  = match lookup_mro attrs l1 with
    | Some o => Some o
    | None => lookup_mro attrs l2
    end.
Proof.
  induction l1 as [| c l1 IH]; cbn; [reflexivity|].
  destruct (attrs !! c); [reflexivity | exact IH].
Qed.

Lemma lookup_mro_insert_other
    (attrs : gmap string Obj) (d : Class) (x : Obj) (l : list Class) :
  d ∉ l -> lookup_mro (<[d := x]> attrs) l = lookup_mro attrs l.
Proof.
  induction l as [| c l IH]; cbn; [reflexivity|].
  intros Hd. apply not_elem_of_cons in Hd as [Hne Hd].
  rewrite lookup_insert_ne by exact Hne.
  destruct (attrs !! c); [reflexivity | exact (IH Hd)].
Qed.

Lemma getattr_stable_step (rt : Runtime) (cls d : Class) (args : list Z) (o : Obj) :
  getattr_instance mro cls rt = Some o ->
  getattr_instance mro cls (MetaSingleton_call mro d args rt).2 = Some o.
Proof.
  intros Hcls. destruct (hasattr_instance mro d rt) eqn:Hd.
  - unfold MetaSingleton_call. rewrite Hd. exact Hcls.
  - rewrite (MetaSingleton_first mro mro_self _ _ _ Hd). cbn [snd].
    unfold getattr_instance in *. cbn [setattr_instance construct snd _instance].
    destruct (decide (d ∈ mro cls)) as [Hin | Hout].
    + apply list_elem_of_split_l in Hin as (pre & post & Heq & Hpre).
      pose proof (mro_linear _ _ _ _ Heq) as Hmd.
      unfold hasattr_instance, getattr_instance in Hd. rewrite Hmd in Hd.
      rewrite Heq in Hcls |- *. rewrite lookup_mro_app in Hcls |- *.
      rewrite (lookup_mro_insert_other _ _ _ _ Hpre).
      destruct (lookup_mro (_instance rt) pre) as [o' |]; [exact Hcls|].
      destruct (lookup_mro (_instance rt) (d :: post)); discriminate.
    + rewrite (lookup_mro_insert_other _ _ _ _ Hout). exact Hcls.
Qed.

Lemma getattr_stable (calls : list (Class * list Z)) (rt : Runtime) (cls : Class) (o : Obj) :
  getattr_instance mro cls rt = Some o ->
  getattr_instance mro cls (call_all (MetaSingleton_call mro) calls rt).2 = Some o.
Proof.
  revert rt. induction calls as [| [d args] rest IH]; intros rt Hc; [exact Hc|].
  cbn [call_all].
  pose proof (getattr_stable_step rt cls d args o Hc) as Hstep.
  destruct (MetaSingleton_call mro d args rt) as [r rt1]. cbn [snd] in Hstep.
  specialize (IH rt1 Hstep).
  destruct (call_all (MetaSingleton_call mro) rest rt1) as [rs rt2]. exact IH.
Qed.

Lemma MetaSingleton_returns_attribute (rt : Runtime) (cls : Class) (args : list Z) :
  exists o, (MetaSingleton_call mro cls args rt).1 = Some o /\
            getattr_instance mro cls (MetaSingleton_call mro cls args rt).2 = Some o.
Proof.
  destruct (hasattr_instance mro cls rt) eqn:H.
  - unfold hasattr_instance in H.
    destruct (getattr_instance mro cls rt) as [o |] eqn:Ho; [|discriminate H].
    rewrite (MetaSingleton_later mro _ _ _ _ Ho). eauto.
  - rewrite (MetaSingleton_first mro mro_self _ _ _ H). cbn [fst snd].
    eexists. split; [reflexivity|].
    apply (getattr_own mro mro_self). cbn. apply lookup_insert_eq.
Qed.

Lemma MetaSingleton_results_final (calls : list (Class * list Z)) (rt : Runtime) :
  forall i cls args,
    calls !! i = Some (cls, args) ->
    exists o,
      (call_all (MetaSingleton_call mro) calls rt).1 !! i = Some (Some o) /\
      getattr_instance mro cls (call_all (MetaSingleton_call mro) calls rt).2 = Some o.
Proof.
  revert rt. induction calls as [| [c a] rest IH]; intros rt i cls args Hi.
  - destruct i; discriminate Hi.
  - cbn [call_all]. destruct i as [| i].
    + injection Hi as -> ->.
      destruct (MetaSingleton_returns_attribute rt cls args) as (o & Hr & Hattr).
      pose proof (getattr_stable rest _ cls o Hattr) as Hfinal.
      destruct (MetaSingleton_call mro cls args rt) as [r rt1]. cbn [fst snd] in *.
      destruct (call_all (MetaSingleton_call mro) rest rt1) as [rs rt2].
      cbn [fst snd] in *. exists o. subst r. split; [reflexivity | exact Hfinal].
    + destruct (MetaSingleton_call mro c a rt) as [r rt1].
      specialize (IH rt1 i cls args Hi).
      destruct (call_all (MetaSingleton_call mro) rest rt1) as [rs rt2]. exact IH.
Qed.

End LinearMro.

(** X12: when every class has at most one base class (the resolution order
    of a class continues with that of each class on it), [MetaSingleton] gives
    a class the same instance at every call, whatever other classes are
    called in between and whether the instance is its own or inherited. *)
Theorem MetaSingleton_single_inheritance_is_stable
    (mro : Class -> list Class) (calls : list (Class * list Z)) (rt : Runtime)
    (i j : nat) (cls : Class) (args args' : list Z) :
  (forall c, head (mro c) = Some c) ->
  (forall c pre d post, mro c = pre ++ d :: post -> mro d = d :: post) ->
  calls !! i = Some (cls, args) ->
  calls !! j = Some (cls, args') ->
  exists o,
    (call_all (MetaSingleton_call mro) calls rt).1 !! i = Some (Some o) /\
    (call_all (MetaSingleton_call mro) calls rt).1 !! j = Some (Some o).
Proof.
  intros Hself Hlin Hi Hj.
  destruct (MetaSingleton_results_final mro Hself Hlin calls rt i cls args Hi)
    as (o & Hri & Hfi).
  destruct (MetaSingleton_results_final mro Hself Hlin calls rt j cls args' Hj)
    as (o' & Hrj & Hfj).
  exists o. split; [exact Hri|]. rewrite Hrj. congruence.
Qed.

Lemma mro_sample_linear (c : Class) (pre : list Class) (d : Class) (post : list Class) :
  mro_sample c = pre ++ d :: post -> mro_sample d = d :: post.
Proof.
  unfold mro_sample at 1.
  destruct (String.eqb_spec c "Child") as [-> | Hc]; intros H.
  - destruct pre as [| p [| q pre]]; cbn in H.
    + injection H as <- <-. reflexivity.
    + injection H as _ <- <-. reflexivity.
    + injection H as _ _ H. destruct pre; discriminate H.
  - destruct pre as [| p pre]; cbn in H.
    + injection H as <- <-. unfold mro_sample.
      destruct (String.eqb_spec c "Child"); [contradiction | reflexivity].
    + injection H as _ H. destruct pre; discriminate H.
Qed.

(** [Child] before and after [Base]: its own instance both times. *)
Lemma MetaSingleton_single_inheritance_is_stable_witness :
  exists o,
    (call_all (MetaSingleton_call mro_sample)
       [("Child", [7]); ("Base", []); ("Child", [8])]%string process_start).1 !! 0%nat
    = Some (Some o) /\
    (call_all (MetaSingleton_call mro_sample)
       [("Child", [7]); ("Base", []); ("Child", [8])]%string process_start).1 !! 2%nat
    = Some (Some o).
Proof.
  exact (MetaSingleton_single_inheritance_is_stable mro_sample
           [("Child", [7]); ("Base", []); ("Child", [8])]%string process_start
           0%nat 2%nat "Child"%string [7] [8]
           mro_sample_self mro_sample_linear eq_refl eq_refl).
Defined.

(** With two base classes the instance of a class can change: [Child] first
    inherits the instance of [Right], and the instance of [Left] once [Left]
    has been called. *)
Example MetaSingleton_two_bases_changes_instance :
  (call_all (MetaSingleton_call mro_two_bases)
     [("Right", []); ("Child", []); ("Left", []); ("Child", [])]%string process_start).1
  = [Some (mkObj 0 "Right" []); Some (mkObj 0 "Right" []);
     Some (mkObj 1 "Left" []); Some (mkObj 1 "Left" [])].
Proof. vm_compute. reflexivity. Qed.

(** ** Threads: what every schedule keeps *)

Lemma table_ok_store (rt : Runtime) (cls : Class) (o : Obj) :
  table_ok rt -> obj_class o = cls -> table_ok (store_INSTANCES cls o rt).
Proof.
  intros Hrt Ho c o' H. cbn in H.
  destruct (decide (cls = c)) as [-> | Hne].
  - rewrite lookup_insert_eq in H. injection H as <-. exact Ho.
  - rewrite lookup_insert_ne in H by exact Hne. exact (Hrt c o' H).
Qed.

Lemma thread_ok_store (rt : Runtime) (cls : Class) (o : Obj) (t : Thread) :
  thread_ok rt t -> thread_ok (store_INSTANCES cls o rt) t.
Proof.
  unfold thread_ok. destruct (t_pc t); auto.
  cbn. intros [o' H]. destruct (decide (cls = t_cls t)) as [-> | Hne].
  - rewrite lookup_insert_eq. eauto.
  - rewrite lookup_insert_ne by exact Hne. eauto.
Qed.

Lemma thread_ok_construct (rt : Runtime) (cls : Class) (args : list Z) (t : Thread) :
  thread_ok rt t -> thread_ok (construct cls args rt).2 t.
Proof. unfold thread_ok. destruct (t_pc t); auto. Qed.

Lemma step_thread_ok (t : Thread) (rt : Runtime) :
  table_ok rt -> thread_ok rt t ->
  table_ok (step_thread t rt).2 /\
  thread_ok (step_thread t rt).2 (step_thread t rt).1 /\
  forall u, thread_ok rt u -> thread_ok (step_thread t rt).2 u.
Proof.
  intros Hrt Ht. unfold step_thread. unfold thread_ok in Ht.
  destruct (t_pc t) as [| | o | | r] eqn:Hpc.
  - destruct (INSTANCES rt !! t_cls t) as [o |] eqn:Hentry; cbn [fst snd].
    + split; [exact Hrt|]. split; [|auto].
      unfold thread_ok. cbn. rewrite Hentry. eauto.
    + split; [exact Hrt|]. split; [exact I | auto].
  - cbn [construct fst snd]. split; [exact Hrt|]. split; [reflexivity|].
    intros u Hu. apply (thread_ok_construct rt (t_cls t) (t_args t) u Hu).
  - cbn [fst snd]. split; [|split].
    + apply table_ok_store; assumption.
    + unfold thread_ok. cbn. rewrite lookup_insert_eq. eauto.
    + intros u Hu. apply thread_ok_store, Hu.
  - cbn [fst snd]. split; [exact Hrt|]. split; [|auto].
    unfold thread_ok. cbn. destruct Ht as [o Ho]. exists o. split; [exact Ho|].
    exact (Hrt _ _ Ho).
  - cbn [fst snd]. split; [exact Hrt|]. split; [|auto].
    unfold thread_ok. rewrite Hpc. exact Ht.
Qed.

Lemma step_pool_ok (i : nat) (st : list Thread * Runtime) :
  pool_ok st -> pool_ok (step_pool i st).
Proof.
  destruct st as [pool rt]. intros [Hrt Hpool]. unfold step_pool. cbn [fst snd].
  destruct (pool !! i) as [t |] eqn:Hi; [|split; assumption].
  assert (Ht : thread_ok rt t).
  { apply Hpool. eapply list_elem_of_lookup_2. exact Hi. }
  destruct (step_thread_ok t rt Hrt Ht) as (Hrt' & Ht' & Hothers).
  destruct (step_thread t rt) as [t' rt']. cbn [fst snd] in *.
  split; [exact Hrt'|].
  intros u Hu. cbn [fst snd] in Hu. apply list_elem_of_lookup in Hu as [j Hj].
  destruct (decide (i = j)) as [<- | Hne].
  - rewrite list_lookup_insert_eq in Hj by (eapply lookup_lt_Some; exact Hi).
    injection Hj as <-. exact Ht'.
  - rewrite list_lookup_insert_ne in Hj by exact Hne.
    apply Hothers, Hpool. eapply list_elem_of_lookup_2. exact Hj.
Qed.

Lemma run_schedule_ok (schedule : list nat) (st : list Thread * Runtime) :
  pool_ok st -> pool_ok (run_schedule schedule st).
Proof.
  revert st. induction schedule as [| i rest IH]; intros st Hst; [exact Hst|].
  cbn. apply IH, step_pool_ok, Hst.
Qed.

(** X13: threads that call the wrapper without any lock still never get a
    [KeyError]: in every schedule, from the start of the process, a call that
    finishes returns an instance, and one of its own class. *)
Theorem every_schedule_returns_an_instance
    (schedule : list nat) (pool : list Thread) (t : Thread) (result : option Obj) :
  (forall u, u ∈ pool -> t_pc u = AtCheck) ->
  t ∈ (run_schedule schedule (pool, process_start)).1 ->
  t_pc t = Finished result ->
  exists o, result = Some o /\ obj_class o = t_cls t.
Proof.
  intros Hstart Ht Hpc.
  assert (Hok : pool_ok (pool, process_start)).
  { split.
    - intros c o H. cbn in H. rewrite lookup_empty in H. discriminate H.
    - intros u Hu. unfold thread_ok. cbn [fst] in Hu. rewrite (Hstart u Hu). exact I. }
  destruct (run_schedule_ok schedule _ Hok) as [_ Hpool].
  specialize (Hpool t Ht). unfold thread_ok in Hpool. rewrite Hpc in Hpool.
  exact Hpool.
Qed.

(** The second thread of the race. *)
Lemma every_schedule_returns_an_instance_witness :
  exists o, Some (mkObj 1 "FileLock" []) = Some o /\ obj_class o = "FileLock"%string.
Proof.
  assert (Hstart : forall u, u ∈ racing_pool -> t_pc u = AtCheck).
  { intros u Hu.
    apply elem_of_cons in Hu as [-> | Hu]; [reflexivity|].
    apply elem_of_cons in Hu as [-> | Hu]; [reflexivity|]. inversion Hu. }
  assert (Hin : mkThread "FileLock" [] (Finished (Some (mkObj 1 "FileLock" [])))
                ∈ (run_schedule [0; 1; 0; 0; 0; 1; 1; 1]%nat (racing_pool, process_start)).1).
  { vm_compute. apply list_elem_of_further, list_elem_of_here. }
  exact (every_schedule_returns_an_instance [0; 1; 0; 0; 0; 1; 1; 1]%nat racing_pool
           _ _ Hstart Hin eq_refl).
Defined.

(** ** Where the whole-file primitive starts *)

Ltac descriptor_at_0 Hfollow :=
  match goal with
  | E : answer ?env ?h (OpFileno ?handle) = Ret ?v
    |- context [descriptor_offset ?env ?h2 ?v] =>
      let Hd := fresh "Hd" in
      pose proof (Hfollow h v E h2) as Hd; cbn [reported] in Hd;
      destruct (decide (handle = handle)); [|contradiction];
      rewrite (Hd _ eq_refl)
  end.

(** X19: when the descriptor that [handle.fileno()] gives is kept where the
    file object is (as it is for a file opened without a buffer), [lock] and
    [unlock] call [msvcrt.locking] only with the descriptor at offset 0:
    either [tell] reported 0, or the seek to 0 returned first.  With a buffer
    between the file object and the descriptor nothing of the kind holds. *)
Theorem locking_from_offset_0_when_descriptor_follows
    (env : Env) (major : Z) (self : FileLock) (handle : IO) (flags : Z) (w : World) :
  (forall hist fd, env hist (OpFileno handle) = Ret fd -> descriptor_follows env handle fd) ->
  only_calls locking_from_start w (lock major self handle flags env w).2 /\
  only_calls locking_from_start w (unlock self handle env w).2.
Proof.
  intros Hfollow. unfold only_calls. split; open_all;
    repeat case_step env; give_issued; repeat constructor;
    cbn [fst locking_from_start]; try reflexivity;
    descriptor_at_0 Hfollow; try reflexivity;
    match goal with
    | H : truthy _ = false |- _ => apply truthy_false in H; rewrite H; reflexivity
    end.
Qed.

(** On [log.txt], whose file object has no buffer, with the cursor at 7. *)
Lemma locking_from_offset_0_when_descriptor_follows_witness :
  only_calls locking_from_start (world_at 7)
    (lock py3 (FileLock_init py3) log_txt LOCK.EX env_ok (world_at 7)).2 /\
  only_calls locking_from_start (world_at 7)
    (unlock (FileLock_init py3) log_txt env_ok (world_at 7)).2.
Proof.
  apply (locking_from_offset_0_when_descriptor_follows env_ok py3 (FileLock_init py3)
           log_txt LOCK.EX (world_at 7)).
  intros hist fd _ hist' pos Hpos. cbn. unfold unbuffered. rewrite Hpos. reflexivity.
Defined.

(** ** When the seek back fails *)

(** X22: in the exclusive branch of [lock] and in [unlock], on a file object
    that is not at 0 and whose [tell] and [seek(0)] return, when the seek back
    to the saved position raises [IOError] the call raises [LockException]
    with the message of that [IOError], whatever the primitives answered in
    between, and the file object is left at 0. *)
Theorem seek_back_raises
    (env : Env) (major : Z) (self : FileLock) (handle : IO) (flags : Z) (w : World)
    (strerror : string) :
  has_flag flags LOCK.SH = false ->
  cursor w handle <> 0 ->
  (forall hist, returned (env hist (OpTell handle)) = true) ->
  (forall hist, returned (env hist (OpSeek handle 0)) = true) ->
  (forall hist, env hist (OpSeek handle (cursor w handle)) = Raises (IOError strerror)) ->
  ((lock major self handle flags env w).1 = Err (LockException LOCK_FAILED strerror handle) /\
   cursor (lock major self handle flags env w).2 handle = 0) /\
  ((unlock self handle env w).1 = Err (LockException LOCK_FAILED strerror handle) /\
   cursor (unlock self handle env w).2 handle = 0).
Proof.
  intros Hsh HP Ht Hs Hback.
  assert (Htruthy : truthy (cursor w handle) = true).
  { unfold truthy. apply negb_true_iff, Z.eqb_neq, HP. }
  split; [unfold lock; rewrite Hsh|]; open_all;
    repeat first [rewrite Hback | rewrite Htruthy | case_step env];
    cbn [history cursor effect fst snd]; try restore_failed;
    (split; [reflexivity | apply set_cursor_same]).
Qed.

(** On [log.txt] with the cursor at 5 and a file object that refuses to seek
    anywhere but to 0. *)
Lemma seek_back_raises_witness :
  (lock py3 (FileLock_init py3) log_txt LOCK.EX env_restore_fails (world_at 5)).1
  = Err (LockException LOCK_FAILED "Invalid argument" log_txt) /\
  cursor (lock py3 (FileLock_init py3) log_txt LOCK.EX env_restore_fails (world_at 5)).2 log_txt
  = 0.
Proof.
  exact (proj1 (seek_back_raises env_restore_fails py3 (FileLock_init py3) log_txt LOCK.EX
                  (world_at 5) "Invalid argument" eq_refl ltac:(discriminate)
                  (fun _ => eq_refl) (fun _ => eq_refl) (fun _ => eq_refl))).
Defined.

(** ** The flag vocabulary *)

Lemma land_pow2_other (i j : Z) :
  0 <= i -> 0 <= j -> i <> j -> Z.land (2 ^ i) (2 ^ j) = 0.
Proof.
  intros Hi Hj Hij. apply Z.bits_inj'. intros n Hn.
  rewrite Z.land_spec, !Z.pow2_bits_eqb, Z.bits_0 by assumption.
  destruct (Z.eqb_spec i n) as [<- | _]; [|reflexivity].
  destruct (Z.eqb_spec j i) as [-> | _]; [contradiction | reflexivity].
Qed.

Lemma has_flag_lor_other (flags i j : Z) :
  0 <= i -> 0 <= j -> i <> j ->
  has_flag (Z.lor flags (2 ^ i)) (2 ^ j) = has_flag flags (2 ^ j).
Proof.
  intros Hi Hj Hij. unfold has_flag.
  rewrite Z.land_lor_distr_l, (land_pow2_other i j Hi Hj Hij), Z.lor_0_r.
  reflexivity.
Qed.

Lemma has_flag_lor_same (flags i : Z) :
  0 <= i -> has_flag (Z.lor flags (2 ^ i)) (2 ^ i) = true.
Proof.
  intros Hi. unfold has_flag. apply negb_true_iff, Z.eqb_neq.
  rewrite Z.land_lor_distr_l, Z.land_diag. intros H.
  apply Z.lor_eq_0_iff in H as [_ H].
  assert (0 < 2 ^ i) by (apply Z.pow_pos_nonneg; lia). lia.
Qed.

(** X20: for any flags value, adding one of [EX], [SH], [NB] with [|] sets
    that bit and leaves the other two as [&] saw them before; adding [UN]
    changes nothing.  So the three can be combined freely and read back, and
    [UN] cannot be read back at all. *)
Theorem flags_are_independent_bits (flags : Z) :
  (has_flag (Z.lor flags LOCK.EX) LOCK.EX = true /\
   has_flag (Z.lor flags LOCK.EX) LOCK.SH = has_flag flags LOCK.SH /\
   has_flag (Z.lor flags LOCK.EX) LOCK.NB = has_flag flags LOCK.NB) /\
  (has_flag (Z.lor flags LOCK.SH) LOCK.SH = true /\
   has_flag (Z.lor flags LOCK.SH) LOCK.EX = has_flag flags LOCK.EX /\
   has_flag (Z.lor flags LOCK.SH) LOCK.NB = has_flag flags LOCK.NB) /\
  (has_flag (Z.lor flags LOCK.NB) LOCK.NB = true /\
   has_flag (Z.lor flags LOCK.NB) LOCK.EX = has_flag flags LOCK.EX /\
   has_flag (Z.lor flags LOCK.NB) LOCK.SH = has_flag flags LOCK.SH) /\
  Z.lor flags LOCK.UN = flags /\
  has_flag flags LOCK.UN = false.
Proof.
  change LOCK.EX with (2 ^ 0). change LOCK.SH with (2 ^ 1). change LOCK.NB with (2 ^ 2).
  repeat apply conj;
    try (apply has_flag_lor_same; lia);
    try (apply has_flag_lor_other; lia).
  - apply Z.lor_0_r.
  - unfold has_flag. change LOCK.UN with 0. rewrite Z.land_0_r. reflexivity.
Qed.

(** * [library/encryption.py] *)

Section EncryptionFacts.

Import encryption.

(** ** Generated passwords *)

Lemma get_in_chars (s : string) (n : nat) :
  (n < String.length s)%nat ->
  exists c, String.get n s = Some c /\ in_chars c s = true.
Proof.
  revert n. induction s as [| d s IH]; intros n Hn; cbn in Hn; [lia|].
  destruct n as [| n]; cbn.
  - exists d. rewrite Ascii.eqb_refl. split; reflexivity.
  - destruct (IH n ltac:(lia)) as (c & Hget & Hin).
    exists c. split; [exact Hget|]. rewrite Hin. destruct (Ascii.eqb c d); reflexivity.
Qed.

Lemma join_length (cs : list ascii) : String.length (join cs) = length cs.
Proof.
  unfold join. induction cs as [| c cs IH]; cbn; [reflexivity | rewrite IH; reflexivity].
Qed.

Lemma join_all_in (chars : string) (cs : list ascii) :
  Forall (fun c => in_chars c chars = true) cs -> all_in chars (join cs) = true.
Proof.
  unfold join. induction 1 as [| c cs Hc _ IH]; cbn; [reflexivity|].
  rewrite Hc, IH. reflexivity.
Qed.

Lemma mapM_choice (rng : nat -> nat) (chars : string) (l : list nat) :
  (0 < String.length chars)%nat ->
  exists cs,
    mapM (fun x => choice (rng x) chars) l = Some cs /\
    List.length cs = List.length l /\
    Forall (fun c => in_chars c chars = true) cs.
Proof.
  intros Hpos. induction l as [| x l (cs & Hcs & Hlen & Hin)].
  - exists []. repeat split. constructor.
  - destruct (get_in_chars chars (rng x mod String.length chars))
      as (c & Hget & Hc).
    { apply Nat.mod_upper_bound. lia. }
    exists (c :: cs). split; [|split].
    + change (String.get (rng x mod String.length chars) chars)
        with (choice (rng x) chars) in Hget.
      cbn. rewrite Hget. cbn. rewrite Hcs. reflexivity.
    + cbn. rewrite Hlen. reflexivity.
    + constructor; assumption.
Qed.

(** X14: [_random(length)] never fails and returns exactly [length]
    characters (none when [length] is not positive), each of them an ASCII
    letter, a digit or a punctuation mark, whatever the generator draws;
    [generate()] without an argument returns 16 of them. *)
Theorem random_password (rng : nat -> nat) (length : Z) :
  let chars :=
    String.append ascii_uppercase
      (String.append ascii_lowercase (String.append digits punctuation)) in
  (exists s, _random rng length = Some s /\
             String.length s = Z.to_nat length /\
             all_in chars s = true) /\
  (exists s, generate rng None = Some s /\ String.length s = 16%nat) /\
  String.length chars = 94%nat /\
  in_chars " " chars = false.
Proof.
  intros chars.
  assert (Hpos : (0 < String.length chars)%nat) by (vm_compute; lia).
  assert (Hrandom : forall n, exists s,
            _random rng n = Some s /\ String.length s = Z.to_nat n /\
            all_in chars s = true).
  { intros n. unfold _random. fold chars. unfold range.
    destruct (mapM_choice rng chars (seq 0 (Z.to_nat n)) Hpos) as (cs & Hcs & Hlen & Hin).
    exists (join cs). rewrite Hcs. split; [reflexivity|]. split.
    - rewrite join_length, Hlen. apply length_seq.
    - apply join_all_in, Hin. }
  split; [apply Hrandom|]. split; [|split; reflexivity].
  destruct (Hrandom 16) as (s & Hs & Hlen & _).
  exists s. split; [exact Hs | exact Hlen].
Qed.

(** ** [KeyVault] and [Cypher] *)

Ltac open_vault :=
  unfold get_password, set_password, del_password, encrypt, decrypt, password,
    Symmetric, Symmetric_key, reraise, try_except, ext, get_key, set_key, raise,
    mbind, E_bind, mret, E_ret.

Ltac ext_step env :=
  cbn [log __key fst snd];
  match goal with
  | |- context [match env ?l ?c with _ => _ end] =>
      destruct (env l c) as [? | ?] eqn:?
  | |- context [match ?v with VNone => _ | _ => _ end] => is_var v; destruct v
  | |- context [if ?b then _ else _] => destruct b eqn:?
  end.

(** X15: when the keyring has no entry ([get_password] of [keyring] returns
    [None]), [KeyVault.get_password] returns [None] and calls nothing else:
    neither Fernet nor the codecs, so it succeeds even before any key is
    set. *)
Theorem get_password_without_entry
    (env : Env) (st : State) (service username : string) :
  env (log st) (KeyringGet service username) = Ret VNone ->
  get_password service username env st
  = (Ok VNone, mkState (__key st) ((KeyringGet service username, Ret VNone) :: log st)).
Proof.
  intros H. open_vault. rewrite H. reflexivity.
Qed.

Lemma get_password_without_entry_witness :
  get_password "mail" "ana" env_empty_keyring (fresh VNone)
  = (Ok VNone, mkState VNone [(KeyringGet "mail" "ana", Ret VNone)]).
Proof.
  exact (get_password_without_entry env_empty_keyring (fresh VNone) "mail" "ana" eq_refl).
Defined.


(** X17: [KeyVault.set_password] writes the keyring at most once, as its last
    call, for the service and user it was given, and with what [decode]
    returned for the token that Fernet made with the current key from the
    encoded password; when any of these steps raises, the keyring is not
    written. *)
Theorem set_password_stores_the_token
    (env : Env) (st : State) (service username : string) (pw : Val) :
  exists evs,
    logged st (set_password service username pw env st).2 evs /\
    (forallb (fun ev : Ext * Reply => negb (is_KeyringSet ev.1)) evs = true \/
     exists fernet data token stored r,
       evs = [(KeyringSet service username stored, r);
              (Decode token, Ret stored);
              (FernetEncrypt (__key st) data, Ret token);
              (Encode pw, Ret data);
              (NewFernet (__key st), Ret fernet)]).
Proof.
  unfold logged. open_vault.
  repeat ext_step env; cbn [log __key fst snd];
    lazymatch goal with
    | |- exists evs, ?l = evs ++ ?b /\ _ =>
        let rec prefix l :=
          lazymatch l with
          | b => constr:(@nil (Ext * Reply))
          | ?x :: ?rest => let r := prefix rest in constr:(x :: r)
          end in
        let p := prefix l in exists p; split; [reflexivity|]
    end;
    first [left; reflexivity | right; eauto 10].
Qed.

(** X18: the key of a [Cypher] changes only in [password], and only when
    [password] returns: then the key is what [b64encode] returned last.  A
    [password] that raises leaves the earlier key in force, and no other
    operation touches the key. *)
Theorem key_changes_only_when_password_returns
    (env : Env) (st : State) (service username : string) (value salt : Val) :
  __key (get_password service username env st).2 = __key st /\
  __key (set_password service username value env st).2 = __key st /\
  __key (del_password service username env st).2 = __key st /\
  __key (encrypt value env st).2 = __key st /\
  __key (decrypt value env st).2 = __key st /\
  match (password value salt env st).1 with
  | Ok _ =>
      exists derived,
        head (log (password value salt env st).2)
        = Some (B64encode derived, Ret (__key (password value salt env st).2))
  | Err _ => __key (password value salt env st).2 = __key st
  end.
Proof.
  repeat apply conj; open_vault;
    repeat ext_step env; cbn [log __key fst snd]; eauto.
Qed.

(** The entry of the keyring was made with another key: [InvalidToken]
    comes out as Fernet raised it. *)
Example get_password_stale_entry :
  (get_password "mail" "ana" env_stale_entry (fresh (VBytes "k"))).1 = Err InvalidToken.
Proof. reflexivity. Qed.

(** A password goes into the keyring as the decoded Fernet token. *)
Example set_password_toy :
  log (set_password "mail" "ana" (VStr "s3cret") env_toy (fresh (VBytes "k"))).2
  = [(KeyringSet "mail" "ana" (VStr "gAAAAAs3cret"), Ret VNone);
     (Decode (VBytes "gAAAAAs3cret"), Ret (VStr "gAAAAAs3cret"));
     (FernetEncrypt (VBytes "k") (VBytes "s3cret"), Ret (VBytes "gAAAAAs3cret"));
     (Encode (VStr "s3cret"), Ret (VBytes "s3cret"));
     (NewFernet (VBytes "k"), Ret VNone)].
Proof. reflexivity. Qed.

(** A key derivation that fails leaves the key as it was. *)
Example password_fails_keeps_key :
  password (VStr "pw") (VStr "salt") env_no_kdf (fresh (VBytes "old"))
  = (Err (OtherError "AlreadyFinalized"),
     mkState (VBytes "old")
       [(Derive (VBytes "") (VBytes ""), Raises (OtherError "AlreadyFinalized"));
        (Encode (VBytes ""), Ret (VBytes ""));
        (Encode (VStr "pw"), Ret (VBytes ""));
        (NewPBKDF2HMAC 32 (VBytes "") 200000, Ret (VBytes ""));
        (Encode (VBytes ""), Ret (VBytes ""));
        (Encode (VStr "salt"), Ret (VBytes ""))]).
Proof. reflexivity. Qed.

End EncryptionFacts.
